(** * recipe-app-api: a shallow embedding of the account and recipe back end

    The development follows the layout of the Django project:

    - [app/core/models.py]      the custom user manager and user model,
    - [app/user/serializers.py] the user and auth-token serializers,
    - [app/recipe/views.py]     the owner-scoped viewsets,
    - the recipe write pipeline ([recipe/serializers.py]), which is not part
      of the sources at hand and is modelled from the specification.

    Database tables are lists of rows in storage order, Python dictionaries
    are finite maps, exceptions are values of [exn], and code that reads or
    writes the database runs in a small state-and-exception monad [M]. *)

From Stdlib Require Import ZArith String Ascii.
From stdpp Require Import base option list sorting strings gmap.

Local Open Scope Z_scope.
Local Open Scope string_scope.

(** ** Exceptions and the database monad *)

(** The exception classes the code raises, or lets the framework raise. *)
Inductive exn : Type :=
  | ValueError (msg : string)
  | TypeError (msg : string)
  | ValidationError (msg : string) (code : string)
  | FieldErrors (errors : list (string * string))
  | IntegrityError (column : string)
  | DataError (msg : string)
  | Http404.

Inductive result (A : Type) : Type :=
  | Ok (a : A)
  | Raise (e : exn).
Arguments Ok {A} a.
Arguments Raise {A} e.

(** ** [app/core/models.py] *)

(** A row of the [User] model: the columns declared in the class together
    with [password] (from [AbstractBaseUser]) and [is_superuser] (from
    [PermissionsMixin]). An instance that was never saved has no [id]. *)
Record User : Type := mkUser {
  user_id : option Z;
  email : string;
  name : string;
  password : string;
  is_active : bool;
  is_staff : bool;
  is_superuser : bool
}.

Global Instance User_eq_dec : EqDecision User.
Proof. solve_decision. Defined.

(** Modelled from the spec: the [Tag], [Ingredient] and [Recipe] models
    that [recipe/views.py] imports from [core.models] are not declared in
    the sources. Their columns follow the data model of the specification;
    the owner column is called [user], the name the views filter on. *)
Record Tag : Type := mkTag {
  tag_id : Z;
  tag_name : string;
  tag_user : Z
}.

Record Ingredient : Type := mkIngredient {
  ingredient_id : Z;
  ingredient_name : string;
  ingredient_user : Z
}.

(** [price] is a decimal with two places, held in hundredths. *)
Record Recipe : Type := mkRecipe {
  recipe_id : Z;
  recipe_user : Z;
  title : string;
  description : string;
  time_minutes : Z;
  price : Z;
  link : string
}.

Global Instance Tag_eq_dec : EqDecision Tag.
Proof. solve_decision. Defined.
Global Instance Ingredient_eq_dec : EqDecision Ingredient.
Proof. solve_decision. Defined.
Global Instance Recipe_eq_dec : EqDecision Recipe.
Proof. solve_decision. Defined.

(** The tables, each a list of rows in storage order, the sequences that
    hand out primary keys, and the two join tables of the many-to-many
    relations, holding pairs (recipe key, tag or ingredient key). *)
Record DB : Type := mkDB {
  users : list User;
  user_seq : Z;
  tags : list Tag;
  tag_seq : Z;
  ingredients : list Ingredient;
  ingredient_seq : Z;
  recipes : list Recipe;
  recipe_seq : Z;
  recipe_tags : list (Z * Z);
  recipe_ingredients : list (Z * Z)
}.

Definition empty_db : DB := mkDB [] 1 [] 1 [] 1 [] 1 [] [].

Definition set_users (db : DB) (table : list User) (seq : Z) : DB :=
  mkDB table seq (tags db) (tag_seq db) (ingredients db) (ingredient_seq db)
       (recipes db) (recipe_seq db) (recipe_tags db) (recipe_ingredients db).

(** Computations over the database that may raise. A raised exception
    keeps the writes made before it (no transaction is opened). *)
Definition M (A : Type) : Type := DB → result A * DB.

Global Instance M_ret : MRet M := λ A a db, (Ok a, db).
Global Instance M_bind : MBind M := λ A B f c db,
  match c db with
  | (Ok a, db') => f a db'
  | (Raise e, db') => (Raise e, db')
  end.

Definition raise {A : Type} (e : exn) : M A := λ db, (Raise e, db).
Definition get_db : M DB := λ db, (Ok db, db).
Definition put_db (db' : DB) : M unit := λ _, (Ok tt, db').

(** The password hashing facility of the framework ([make_password] and
    [check_password] of [django.contrib.auth.hashers]), taken as an
    interface: the configured hasher is not part of the project. *)
Class Hasher : Type := {
  make_password : option string → string;
  check_password : string → string → bool
}.

(** Python truthiness of an optional string: [None] and [''] are falsy. *)
Definition truthy (s : option string) : bool :=
  match s with
  | None => false
  | Some s => negb (String.eqb s "")
  end.

(** [str.lower] on the ASCII range. *)
Definition lower_ascii (c : ascii) : ascii :=
  let n := N_of_ascii c in
  if ((65 <=? n) && (n <=? 90))%N then ascii_of_N (n + 32) else c.

Fixpoint lower (s : string) : string :=
  match s with
  | EmptyString => EmptyString
  | String c s' => String (lower_ascii c) (lower s')
  end.

(** [s.rsplit('@', 1)] when it yields two parts: the text before the last
    ['@'] and the text after it; [None] when [s] holds no ['@'] (the
    unpacking into two names raises [ValueError] there). *)
Fixpoint rsplit_at (s : string) : option (string * string) :=
  match s with
  | EmptyString => None
  | String c s' =>
      match rsplit_at s' with
      | Some (l, d) => Some (String c l, d)
      | None => if Ascii.eqb c "@" then Some (EmptyString, s') else None
      end
  end.

(** Modelled from the spec: [BaseUserManager.normalize_email] is inherited
    from the framework and is not in the sources. The specification says
    it lower-cases the domain portion of the address; an address without a
    domain is returned as it is, and [None] becomes the empty string. *)
Definition normalize_email (email : option string) : string :=
  let email := default "" email in
  match rsplit_at email with
  | Some (email_name, domain_part) => email_name ++ "@" ++ lower domain_part
  | None => email
  end.

(** [**extra_fields]: keyword arguments for the remaining columns of the
    model. [email] and [password] are bound by the named parameters of
    [create_user] and so can never arrive here. *)
Record ExtraFields : Type := mkExtra {
  xf_name : option string;
  xf_is_active : option bool;
  xf_is_staff : option bool;
  xf_is_superuser : option bool
}.

Definition no_extra : ExtraFields := mkExtra None None None None.

(** [self.model(email=..., **extra_fields)]: columns not given take their
    declared defaults. *)
Definition model (email : string) (extra_fields : ExtraFields) : User :=
  {| user_id := None;
     email := email;
     name := default "" (xf_name extra_fields);
     password := "";
     is_active := default true (xf_is_active extra_fields);
     is_staff := default false (xf_is_staff extra_fields);
     is_superuser := default false (xf_is_superuser extra_fields) |}.

Definition set_password `{Hasher} (user : User) (raw_password : option string) : User :=
  {| user_id := user_id user;
     email := email user;
     name := name user;
     password := make_password raw_password;
     is_active := is_active user;
     is_staff := is_staff user;
     is_superuser := is_superuser user |}.

Definition with_id (user : User) (pk : Z) : User :=
  {| user_id := Some pk;
     email := email user;
     name := name user;
     password := password user;
     is_active := is_active user;
     is_staff := is_staff user;
     is_superuser := is_superuser user |}.

(** The widths the character columns are declared with: [max_length=255]
    for [email] and [name], 128 for the inherited [password]. *)
Definition fits_columns (user : User) : Prop :=
  (String.length (email user) ≤ 255
   ∧ String.length (name user) ≤ 255
   ∧ String.length (password user) ≤ 128)%nat.

Global Instance fits_columns_dec user : Decision (fits_columns user).
Proof. unfold fits_columns. apply _. Defined.

Definition email_taken (table : list User) (user : User) : bool :=
  bool_decide (Exists (λ row, email row = email user ∧ user_id row ≠ user_id user) table).

(** [user.save()]: an instance without primary key is inserted under the
    next key of the sequence, one with a key replaces its row. The
    database refuses a value wider than its column, and a second row with
    the same [email], which is declared [unique=True]. *)
Definition save (user : User) : M User := λ db,
  if negb (bool_decide (fits_columns user)) then
    (Raise (DataError "value too long for type character varying"), db)
  else if email_taken (users db) user then (Raise (IntegrityError "email"), db)
  else
    match user_id user with
    | None =>
        let row := with_id user (user_seq db) in
        (Ok row, set_users db (users db ++ [row]) (user_seq db + 1))
    | Some pk =>
        (Ok user,
         set_users db
           ((λ row, if bool_decide (user_id row = Some pk) then user else row) <$> users db)
           (user_seq db))
    end.

(** [UserManager.create_user] *)
Definition create_user `{Hasher}
    (email : option string) (password : option string) (extra_fields : ExtraFields) : M User :=
  if negb (truthy email) then
    raise (ValueError "User must have an email address.")
  else
    let user := model (normalize_email email) extra_fields in
    let user := set_password user password in
    user ← save user;
    mret user.

Definition set_is_staff (user : User) (value : bool) : User :=
  mkUser (user_id user) (email user) (name user) (password user)
         (is_active user) value (is_superuser user).

Definition set_is_superuser (user : User) (value : bool) : User :=
  mkUser (user_id user) (email user) (name user) (password user)
         (is_active user) (is_staff user) value.

(** [UserManager.create_superuser]; the extra fields are not passed on. *)
Definition create_superuser `{Hasher}
    (email : option string) (password : option string) (extra_fields : ExtraFields) : M User :=
  user ← create_user email password no_extra;
  let user := set_is_staff user true in
  let user := set_is_superuser user true in
  user ← save user;
  mret user.

(** ** [app/user/serializers.py] *)

(** *** Field validation, as the serializer base classes run it *)

(** Characters that [str.strip] removes, on the ASCII range. *)
Definition is_space (c : ascii) : bool :=
  let n := N_of_ascii c in
  (((9 <=? n) && (n <=? 13)) || ((28 <=? n) && (n <=? 32)))%N.

Fixpoint lstrip (s : string) : string :=
  match s with
  | EmptyString => EmptyString
  | String c s' => if is_space c then lstrip s' else s
  end.

Fixpoint rstrip (s : string) : string :=
  match s with
  | EmptyString => EmptyString
  | String c s' =>
      match rstrip s' with
      | EmptyString => if is_space c then EmptyString else String c EmptyString
      | r => String c r
      end
  end.

Definition strip (s : string) : string := lstrip (rstrip s).

(** The keyword arguments of a character field that matter here. *)
Record CharField : Type := mkCharField {
  max_length : option nat;
  min_length : option nat;
  trim_whitespace : bool;
  allow_blank : bool;
  write_only : bool
}.

(** The format check of [EmailField], owned by the framework. *)
Class EmailValidator : Type := email_ok : string → bool.

(** Length validators of a character field; every failing validator
    contributes its message. *)
Definition run_validators (field : CharField) (value : string) : list string :=
  (match max_length field with
   | Some n => if bool_decide (n < String.length value)%nat
               then ["Ensure this field has no more than the allowed number of characters."]
               else []
   | None => []
   end) ++
  (match min_length field with
   | Some n => if bool_decide (String.length value < n)%nat
               then ["Ensure this field has at least the required number of characters."]
               else []
   | None => []
   end).

(** [CharField.run_validation] on a value that is present: the validated
    value, or the messages. *)
Definition run_validation (field : CharField) (data : string) : string + list string :=
  if bool_decide (data = "") || (trim_whitespace field && bool_decide (strip data = ""))
  then if allow_blank field then inl "" else inr ["This field may not be blank."]
  else
    let value := if trim_whitespace field then strip data else data in
    match run_validators field value with
    | [] => inl value
    | messages => inr messages
    end.

(** *** [UserSerializer] *)

(** [Meta.fields] with the arguments the model columns and [extra_kwargs]
    give each field: [password] is write-only with [min_length] 5. *)
Definition UserSerializer_fields : list (string * CharField) :=
  [ ("email", mkCharField (Some 255%nat) None true false false);
    ("password", mkCharField (Some 128%nat) (Some 5%nat) true false true);
    ("name", mkCharField (Some 255%nat) None true false false) ].

(** The validators the [email] column adds: the address format and the
    uniqueness of the column, the instance being updated left aside. *)
Definition email_validators `{EmailValidator}
    (instance : option User) (table : list User) (value : string) : list string :=
  (if email_ok value then [] else ["Enter a valid email address."]) ++
  (if bool_decide (Exists (λ row, email row = value ∧ Some (user_id row) ≠ user_id <$> instance) table)
   then ["user with this email already exists."] else []).

(** One field of the request: absent fields are an error unless the
    update is partial. The result is the addition to [validated_data] or
    the messages for the field. *)
Definition validate_field `{EmailValidator}
    (instance : option User) (partial : bool) (table : list User)
    (data : gmap string string) (name : string) (field : CharField)
    : option string + list string :=
  match data !! name with
  | None => if partial then inl None else inr ["This field is required."]
  | Some raw =>
      match run_validation field raw with
      | inr messages => inr messages
      | inl value =>
          match (if bool_decide (name = "email")
                 then email_validators instance table value else []) with
          | [] => inl (Some value)
          | messages => inr messages
          end
      end
  end.

(** Runs every declared field and gathers [validated_data] and [errors]. *)
Fixpoint validate_fields `{EmailValidator}
    (instance : option User) (partial : bool) (table : list User)
    (data : gmap string string) (fields : list (string * CharField))
    : gmap string string * list (string * string) :=
  match fields with
  | [] => (∅, [])
  | (name, field) :: rest =>
      let '(validated_data, errors) := validate_fields instance partial table data rest in
      match validate_field instance partial table data name field with
      | inl None => (validated_data, errors)
      | inl (Some value) => (<[name := value]> validated_data, errors)
      | inr messages => (validated_data, (((λ m, (name, m)) <$> messages) ++ errors)%list)
      end
  end.

(** [serializer.is_valid(raise_exception=True)]: [validated_data], or the
    errors raised to the caller. *)
Definition is_valid `{EmailValidator}
    (instance : option User) (partial : bool) (data : gmap string string)
    : M (gmap string string) :=
  db ← get_db;
  match validate_fields instance partial (users db) data UserSerializer_fields with
  | (validated_data, []) => mret validated_data
  | (_, errors) => raise (FieldErrors errors)
  end.

(** [UserSerializer.create] hands [validated_data] to [create_user] as
    keyword arguments. The call binds [email] and [password] by name and leaves [name] to the extra
    fields; without an [email] key the call itself is a [TypeError]. *)
Definition UserSerializer_create `{Hasher} (validated_data : gmap string string) : M User :=
  match validated_data !! "email" with
  | None => raise (TypeError "create_user() missing 1 required positional argument: 'email'")
  | Some _ =>
      create_user (validated_data !! "email") (validated_data !! "password")
                  (mkExtra (validated_data !! "name") None None None)
  end.

Definition set_email (user : User) (value : string) : User :=
  mkUser (user_id user) value (name user) (password user)
         (is_active user) (is_staff user) (is_superuser user).

Definition set_name (user : User) (value : string) : User :=
  mkUser (user_id user) (email user) value (password user)
         (is_active user) (is_staff user) (is_superuser user).

(** [ModelSerializer.update]: sets every validated attribute and saves. *)
Definition ModelSerializer_update (instance : User) (validated_data : gmap string string) : M User :=
  let instance := from_option (set_email instance) instance (validated_data !! "email") in
  let instance := from_option (set_name instance) instance (validated_data !! "name") in
  save instance.

(** [UserSerializer.update] *)
Definition UserSerializer_update `{Hasher}
    (instance : User) (validated_data : gmap string string) : M User :=
  let password := validated_data !! "password" in
  let validated_data := delete "password" validated_data in
  user ← ModelSerializer_update instance validated_data;
  if truthy password then
    let user := set_password user password in
    user ← save user;
    mret user
  else mret user.

(** What the generic create and update views do with a request:
    [is_valid(raise_exception=True)] followed by [serializer.save()],
    which calls [create] without an instance and [update] with one. *)
Definition UserSerializer_save `{Hasher} `{EmailValidator}
    (instance : option User) (partial : bool) (data : gmap string string) : M User :=
  validated_data ← is_valid instance partial data;
  match instance with
  | None => UserSerializer_create validated_data
  | Some instance => UserSerializer_update instance validated_data
  end.

(** *** [AuthTokenSerializer] *)

(** Values held by [attrs]: the two validated strings, then the user. *)
Inductive attr : Type :=
  | AStr (s : string)
  | AUser (user : User).

Definition attr_str (value : option attr) : option string :=
  match value with
  | Some (AStr s) => Some s
  | _ => None
  end.

(** The signature of [django.contrib.auth.authenticate], which reads the
    user table and yields a user or [None]. *)
Definition AuthBackend (Request : Type) : Type :=
  option Request → option string → option string → DB → option User.

Section AuthTokenSerializer.
Context {Request : Type}.
Variable authenticate : AuthBackend Request.

(** [AuthTokenSerializer.validate] *)
Definition validate (context : gmap string Request) (attrs : gmap string attr)
    : M (gmap string attr) :=
  let email := attr_str (attrs !! "email") in
  let password := attr_str (attrs !! "password") in
  db ← get_db;
  let user := authenticate (context !! "request") email password db in
  match user with
  | None =>
      let msg := "Unable to authenticate with provided credentials." in
      raise (ValidationError msg "authorization")
  | Some user =>
      let attrs := <["user" := AUser user]> attrs in
      mret attrs
  end.
End AuthTokenSerializer.

(** Modelled from the spec: [authenticate] belongs to the framework. The
    specification says it returns no user if the email is unknown or the
    password does not match the stored hash, and the user otherwise. *)
Definition authenticate `{Hasher} {Request : Type} : AuthBackend Request :=
  λ request username raw_password db,
    username ← username;
    raw_password ← raw_password;
    '(_, user) ← list_find (λ row, email row = username) (users db);
    if check_password raw_password (password user) then Some user else None.

(** ** [app/recipe/views.py] *)

(** [filter(user=self.request.user)] compares the foreign key of a row
    with the primary key of the authenticated user. *)
Definition owned_by (user : User) (owner : Z) : Prop := user_id user = Some owner.

Global Instance owned_by_dec user owner : Decision (owned_by user owner).
Proof. unfold owned_by. apply _. Defined.

(** [get_object_or_404(queryset, pk=pk)], the lookup behind retrieve,
    update and destroy: the first row of the queryset under that key. *)
Definition get_object {A : Type} (key : A → Z) (queryset : list A) (pk : Z) : result A :=
  match list_find (λ row, key row = pk) queryset with
  | Some (_, row) => Ok row
  | None => Raise Http404
  end.

(** *** [RecipeViewSet] *)

(** [order_by('-id')]: greater keys first. *)
Definition id_desc : relation Recipe := λ a b, (recipe_id b ≤ recipe_id a)%Z.

Global Instance id_desc_dec a b : Decision (id_desc a b).
Proof. unfold id_desc. apply _. Defined.

(** [RecipeViewSet.get_queryset]; [queryset] is [Recipe.objects.all()]. *)
Definition RecipeViewSet_get_queryset (user : User) (queryset : list Recipe) : list Recipe :=
  merge_sort id_desc (filter (λ row, owned_by user (recipe_user row)) queryset).

Definition RecipeViewSet_list (user : User) (db : DB) : list Recipe :=
  RecipeViewSet_get_queryset user (recipes db).

Definition RecipeViewSet_retrieve (user : User) (pk : Z) (db : DB) : result Recipe :=
  get_object recipe_id (RecipeViewSet_get_queryset user (recipes db)) pk.

(** *** [BaseRecipeAttrViewSet] and its two subclasses *)

(** What the base viewset needs of a model: a key, a name and an owner. *)
Class RecipeAttr (A : Type) : Type := {
  attr_id : A → Z;
  attr_name : A → string;
  attr_user : A → Z
}.

Global Instance Tag_attr : RecipeAttr Tag :=
  {| attr_id := tag_id; attr_name := tag_name; attr_user := tag_user |}.
Global Instance Ingredient_attr : RecipeAttr Ingredient :=
  {| attr_id := ingredient_id; attr_name := ingredient_name; attr_user := ingredient_user |}.

Section BaseRecipeAttrViewSet.
Context {A : Type} `{RecipeAttr A}.

(** [order_by('-name')]: names that compare greater come first. *)
Definition name_desc : relation A :=
  λ a b, Is_true (String.leb (attr_name b) (attr_name a)).

(** The order the specification words: names that compare smaller first. *)
Definition name_asc : relation A :=
  λ a b, Is_true (String.leb (attr_name a) (attr_name b)).

Global Instance name_desc_dec a b : Decision (name_desc a b).
Proof. unfold name_desc. apply _. Defined.

Global Instance name_asc_dec a b : Decision (name_asc a b).
Proof. unfold name_asc. apply _. Defined.

(** [BaseRecipeAttrViewSet.get_queryset] *)
Definition BaseRecipeAttrViewSet_get_queryset (user : User) (queryset : list A) : list A :=
  merge_sort name_desc (filter (λ row, owned_by user (attr_user row)) queryset).
End BaseRecipeAttrViewSet.

(** [TagViewSet]: [queryset = Tag.objects.all()] *)
Definition TagViewSet_list (user : User) (db : DB) : list Tag :=
  BaseRecipeAttrViewSet_get_queryset user (tags db).

(** [IngredientViewSet]: [queryset = Ingredient.objects.all()] *)
Definition IngredientViewSet_list (user : User) (db : DB) : list Ingredient :=
  BaseRecipeAttrViewSet_get_queryset user (ingredients db).

(** The object lookup of the update and destroy actions of both. *)
Definition TagViewSet_get_object (user : User) (pk : Z) (db : DB) : result Tag :=
  get_object attr_id (BaseRecipeAttrViewSet_get_queryset user (tags db)) pk.

Definition IngredientViewSet_get_object (user : User) (pk : Z) (db : DB) : result Ingredient :=
  get_object attr_id (BaseRecipeAttrViewSet_get_queryset user (ingredients db)) pk.

(** [Tag.objects.create(user=..., name=...)] and its siblings: the row is
    appended under the next key of the table's sequence. *)
Definition Tag_objects_create (owner : Z) (name : string) : M Tag := λ db,
  let row := mkTag (tag_seq db) name owner in
  (Ok row,
   mkDB (users db) (user_seq db) (tags db ++ [row]) (tag_seq db + 1)
        (ingredients db) (ingredient_seq db) (recipes db) (recipe_seq db)
        (recipe_tags db) (recipe_ingredients db)).

Definition Ingredient_objects_create (owner : Z) (name : string) : M Ingredient := λ db,
  let row := mkIngredient (ingredient_seq db) name owner in
  (Ok row,
   mkDB (users db) (user_seq db) (tags db) (tag_seq db)
        (ingredients db ++ [row]) (ingredient_seq db + 1) (recipes db) (recipe_seq db)
        (recipe_tags db) (recipe_ingredients db)).

(** Modelled from the spec: the scalar columns of a recipe as a create
    request carries them (the recipe model is not in the sources). *)
Record RecipeFields : Type := mkFields {
  f_title : string;
  f_description : string;
  f_time_minutes : Z;
  f_price : Z;
  f_link : string
}.

(** Modelled from the spec: persisting a new recipe appends its row under
    the next key of the sequence. *)
Definition Recipe_objects_create (owner : Z) (fields : RecipeFields) : M Recipe := λ db,
  let row := mkRecipe (recipe_seq db) owner (f_title fields) (f_description fields)
                      (f_time_minutes fields) (f_price fields) (f_link fields) in
  (Ok row,
   mkDB (users db) (user_seq db) (tags db) (tag_seq db)
        (ingredients db) (ingredient_seq db) (recipes db ++ [row]) (recipe_seq db + 1)
        (recipe_tags db) (recipe_ingredients db)).

(** ** The recipe write pipeline *)

(** [recipe/serializers.py], which holds the create and update operations
    on recipes and their get-or-create step, is not in the sources. The
    definitions of this part follow section 4.2 of the specification
    sentence by sentence. The specification fixes the kind of each
    failure, not its message. *)

(** Modelled from the spec: the registries of section 2, which the missing
    [recipe/serializers.py] works on. A registry of named, owned rows
    attached to recipes has a table, the creation of a row, and a join
    table with the recipes. *)
Class Registry (A : Type) `{RecipeAttr A} : Type := {
  objects : DB → list A;
  objects_create : Z → string → M A;
  through : DB → list (Z * Z);
  set_through : list (Z * Z) → DB → DB
}.

Global Instance Tag_registry : Registry Tag := {|
  objects := tags;
  objects_create := Tag_objects_create;
  through := recipe_tags;
  set_through := λ links db,
    mkDB (users db) (user_seq db) (tags db) (tag_seq db)
         (ingredients db) (ingredient_seq db) (recipes db) (recipe_seq db)
         links (recipe_ingredients db)
|}.

Global Instance Ingredient_registry : Registry Ingredient := {|
  objects := ingredients;
  objects_create := Ingredient_objects_create;
  through := recipe_ingredients;
  set_through := λ links db,
    mkDB (users db) (user_seq db) (tags db) (tag_seq db)
         (ingredients db) (ingredient_seq db) (recipes db) (recipe_seq db)
         (recipe_tags db) links
|}.

Section get_or_create.
Context {A : Type} `{Registry A}.

(** Modelled from the spec: steps 1a and 1b of [_get_or_create] in the
    missing [recipe/serializers.py]. Look up a row of this owner under
    this name; reuse it if found, create one otherwise. *)
Definition get_or_create (owner : Z) (name : string) : M A :=
  db ← get_db;
  match list_find (λ row, attr_user row = owner ∧ attr_name row = name) (objects db) with
  | Some (_, row) => mret row
  | None => objects_create owner name
  end.

(** Modelled from the spec: step 1c of [_get_or_create] in the missing
    [recipe/serializers.py]. Attach the reference to the recipe's set; a
    reference that is already in the set is not added again. *)
Definition attach (recipe : Z) (row : A) : M unit := λ db,
  let link := (recipe, attr_id row) in
  if bool_decide (link ∈ through db) then (Ok tt, db)
  else (Ok tt, set_through (through db ++ [link]) db).

(** Modelled from the spec: [_get_or_create] of the missing
    [recipe/serializers.py], the get-or-create step over the names, in
    their order. *)
Fixpoint _get_or_create (names : list string) (owner : Z) (recipe : Z) : M unit :=
  match names with
  | [] => mret tt
  | name :: names =>
      row ← get_or_create owner name;
      _ ← attach recipe row;
      _get_or_create names owner recipe
  end.

(** Modelled from the spec: the clearing step of the update in the missing
    [recipe/serializers.py]. Clears the recipe's current set for this
    relation. *)
Definition clear (recipe : Z) : M unit := λ db,
  (Ok tt, set_through (filter (λ link, link.1 ≠ recipe) (through db)) db).

(** Modelled from the spec: the set of a recipe, read back from the join
    table: the rows attached to it. *)
Definition attached (recipe : Z) (db : DB) : list A :=
  filter (λ row, (recipe, attr_id row) ∈ through db) (objects db).
End get_or_create.

(** Modelled from the spec: section 5 asks every write of the missing
    [recipe/serializers.py] to be atomic. A write either commits or leaves
    the database as it found it. *)
Definition atomic {A : Type} (c : M A) : M A := λ db,
  match c db with
  | (Ok a, db') => (Ok a, db')
  | (Raise e, _) => (Raise e, db)
  end.

(** Modelled from the spec: the fully populated recipe the missing
    operations return, a recipe with its two sets. *)
Record RecipeDetail : Type := mkDetail {
  detail_recipe : Recipe;
  detail_tags : list Tag;
  detail_ingredients : list Ingredient
}.

(** Modelled from the spec: reads the two sets of a recipe for the result
    of the missing create and update operations. *)
Definition populated (recipe : Recipe) : M RecipeDetail :=
  db ← get_db;
  mret (mkDetail recipe (attached (recipe_id recipe) db) (attached (recipe_id recipe) db)).

(** Modelled from the spec: the range check of the missing operations,
    which fail with [ValidationError] if [time_minutes <= 0] or
    [price < 0]. *)
Definition check_ranges (time_minutes price : option Z) : M unit :=
  if from_option (λ t, bool_decide (t ≤ 0)%Z) false time_minutes then
    raise (ValidationError "time_minutes" "invalid")
  else if from_option (λ p, bool_decide (p < 0)%Z) false price then
    raise (ValidationError "price" "invalid")
  else mret tt.

(** Modelled from the spec: the create operation of the missing
    [recipe/serializers.py]. It builds the recipe from the scalar fields,
    persists it, then runs the get-or-create step for the lists given. *)
Definition create_recipe (owner : Z) (fields : RecipeFields)
    (tag_names ingredient_names : option (list string)) : M RecipeDetail :=
  atomic (
    _ ← check_ranges (Some (f_time_minutes fields)) (Some (f_price fields));
    recipe ← Recipe_objects_create owner fields;
    _ ← _get_or_create (A := Tag) (default [] tag_names) owner (recipe_id recipe);
    _ ← _get_or_create (A := Ingredient) (default [] ingredient_names) owner (recipe_id recipe);
    populated recipe).

(** Modelled from the spec: the scalar part of the payload of a partial
    update; a field is present or absent. *)
Record RecipePatch : Type := mkPatch {
  p_title : option string;
  p_description : option string;
  p_time_minutes : option Z;
  p_price : option Z;
  p_link : option string
}.

(** Modelled from the spec: partial-update semantics of the missing update
    operation; a field that is absent keeps its value. *)
Definition apply_patch (patch : RecipePatch) (recipe : Recipe) : Recipe :=
  mkRecipe (recipe_id recipe) (recipe_user recipe)
           (default (title recipe) (p_title patch))
           (default (description recipe) (p_description patch))
           (default (time_minutes recipe) (p_time_minutes patch))
           (default (price recipe) (p_price patch))
           (default (link recipe) (p_link patch)).

(** Modelled from the spec: persisting the updated recipe replaces the row
    stored under its key. *)
Definition Recipe_save (recipe : Recipe) : M unit := λ db,
  (Ok tt,
   mkDB (users db) (user_seq db) (tags db) (tag_seq db)
        (ingredients db) (ingredient_seq db)
        ((λ row, if bool_decide (recipe_id row = recipe_id recipe) then recipe else row)
           <$> recipes db)
        (recipe_seq db) (recipe_tags db) (recipe_ingredients db)).

(** Modelled from the spec: the lookup of the recipe to update in the
    missing operation: one of that key owned by the caller, not found
    otherwise. *)
Definition find_recipe (pk owner : Z) : M Recipe :=
  db ← get_db;
  match list_find (λ row, recipe_id row = pk ∧ recipe_user row = owner) (recipes db) with
  | Some (_, row) => mret row
  | None => raise Http404
  end.

(** Modelled from the spec: the partial update of the missing
    [recipe/serializers.py]. A list that is present replaces the recipe's
    set (clear, then get-or-create); scalar fields that are absent keep
    their value. *)
Definition update_recipe (pk owner : Z) (partial_fields : RecipePatch)
    (tag_names ingredient_names : option (list string)) : M RecipeDetail :=
  atomic (
    instance ← find_recipe pk owner;
    _ ← check_ranges (p_time_minutes partial_fields) (p_price partial_fields);
    _ ← match tag_names with
        | Some names =>
            _ ← clear (A := Tag) (recipe_id instance);
            _get_or_create (A := Tag) names owner (recipe_id instance)
        | None => mret tt
        end;
    _ ← match ingredient_names with
        | Some names =>
            _ ← clear (A := Ingredient) (recipe_id instance);
            _get_or_create (A := Ingredient) names owner (recipe_id instance)
        | None => mret tt
        end;
    let instance := apply_patch partial_fields instance in
    _ ← Recipe_save instance;
    populated instance).

(** ** Concrete instances used to run the definitions *)

(** A stand-in hasher that prefixes the algorithm name; [None] gives an
    unusable password. *)
Definition prefix_hasher : Hasher := {|
  make_password := λ raw, match raw with
                          | Some raw => "plain$" ++ raw
                          | None => "!"
                          end;
  check_password := λ raw encoded, String.eqb ("plain$" ++ raw) encoded
|}.

(** A stand-in format check: the address holds an ['@']. *)
Definition has_at : EmailValidator := λ value, bool_decide (is_Some (rsplit_at value)).

(** Two saved users, as [create_user] returns them. *)
Definition user1 : User :=
  mkUser (Some 1) "user@example.com" "" "plain$testpass123" true false false.
Definition user2 : User :=
  mkUser (Some 2) "user2@example.com" "" "plain$testpass123" true false false.

(** A user table holding [user1] alone. *)
Definition one_user_db : DB := set_users empty_db [user1] 2.

(** Credentials for an address that is not in the table, and for the
    address of [user1] with a password that is not theirs. *)
Definition unknown_email_attrs : gmap string attr :=
  {[ "email" := AStr "nobody@example.com"; "password" := AStr "testpass123" ]}.
Definition wrong_password_attrs : gmap string attr :=
  {[ "email" := AStr "user@example.com"; "password" := AStr "badpass" ]}.

(** A registration request with a password of two characters. *)
Definition short_password_data : gmap string string :=
  {[ "email" := "test@example.com"; "password" := "pw"; "name" := "Test name" ]}.

(** The rows of the ingredient test: Kale, then Vanilla, of one user, and
    the same two names as tags. *)
Definition kale_vanilla_db : DB :=
  mkDB [user1] 2
       [mkTag 1 "Kale" 1; mkTag 2 "Vanilla" 1] 3
       [mkIngredient 1 "Kale" 1; mkIngredient 2 "Vanilla" 1] 3
       [] 1 [] [].

Definition sample_fields (name : string) : RecipeFields := mkFields name "" 60 430 "".

(** [db] and [db'] hold the same rows apart from those owned by [owner],
    in each of the three tables: what the owner created, changed or
    removed is all that tells them apart. *)
Definition differ_only_for (owner : Z) (db db' : DB) : Prop :=
  filter (λ row, recipe_user row ≠ owner) (recipes db)
    = filter (λ row, recipe_user row ≠ owner) (recipes db')
  ∧ filter (λ row, tag_user row ≠ owner) (tags db)
    = filter (λ row, tag_user row ≠ owner) (tags db')
  ∧ filter (λ row, ingredient_user row ≠ owner) (ingredients db)
    = filter (λ row, ingredient_user row ≠ owner) (ingredients db').

(** Recipes of two users, stored in two different orders. *)
Definition interleaved_db : DB :=
  mkDB [user1; user2] 3 [] 1 [] 1
       [mkRecipe 1 1 "Soup" "" 10 250 ""; mkRecipe 2 2 "Cake" "" 50 700 "";
        mkRecipe 3 1 "Tacos" "" 60 430 ""; mkRecipe 4 2 "Stew" "" 90 900 ""] 5 [] [].
Definition reordered_db : DB :=
  mkDB [user1; user2] 3 [] 1 [] 1
       [mkRecipe 4 2 "Stew" "" 90 900 ""; mkRecipe 3 1 "Tacos" "" 60 430 "";
        mkRecipe 1 1 "Soup" "" 10 250 ""] 5 [] [].

(** One recipe of user 1 with a tag and two ingredients attached. *)
Definition tacos : Recipe := mkRecipe 1 1 "Cauliflower Tacos" "" 60 430 "".
Definition tacos_db : DB :=
  mkDB [user1; user2] 3
       [mkTag 1 "Dinner" 1] 2
       [mkIngredient 1 "Cauliflower" 1; mkIngredient 2 "Cilantro" 1] 3
       [tacos] 2 [(1, 1)] [(1, 1); (1, 2)].

(** A patch that carries no scalar field. *)
Definition empty_patch : RecipePatch := mkPatch None None None None None.

(** [interleaved_db] after user 1 created one more recipe, with a tag and
    an ingredient of their own. *)
Definition after_create_db : DB :=
  (create_recipe 1 (sample_fields "Curry") (Some ["Vegan"]) (Some ["Salt"]) interleaved_db).2.

(** ** [app/core/management/commands/wait_for_db.py] *)

(** What one call of [self.check(databases=['default'])] does: it passes,
    or raises one of the two operational errors the command catches, or
    raises something else. *)
Inductive check_outcome : Type :=
  | CheckPasses
  | Psychopg2OpError
  | OperationalError
  | OtherException (name : string).

(** A line written to [self.stdout], plain or in the [SUCCESS] style. *)
Inductive output : Type :=
  | Plain (text : string)
  | SUCCESS (text : string).

Global Instance output_eq_dec : EqDecision output.
Proof. solve_decision. Defined.

(** What the command has done so far: the lines written, the seconds
    slept, and the number of checks made. *)
Record Terminal : Type := mkTerminal {
  stdout : list output;
  slept : Z;
  checks_made : nat
}.

Definition stdout_write (line : output) (t : Terminal) : Terminal :=
  mkTerminal (stdout t ++ [line]) (slept t) (checks_made t).

Definition time_sleep (seconds : Z) (t : Terminal) : Terminal :=
  mkTerminal (stdout t) (slept t + seconds) (checks_made t).

Definition self_check (t : Terminal) : Terminal :=
  mkTerminal (stdout t) (slept t) (S (checks_made t)).

(** How a run of the command stands: it returned, an exception left it,
    or it is still in its loop when the recorded checks end. *)
Inductive run_state : Type :=
  | Returns
  | Propagates (name : string)
  | StillWaiting.

(** The [while db_up is False] loop, driven by the outcomes of the
    successive checks. *)
Fixpoint wait_loop (checks : list check_outcome) (t : Terminal) : run_state * Terminal :=
  match checks with
  | [] => (StillWaiting, t)
  | outcome :: checks =>
      let t := self_check t in
      match outcome with
      | CheckPasses => (Returns, t)
      | Psychopg2OpError | OperationalError =>
          let t := stdout_write (Plain "Database not available, waiting 1 sec") t in
          let t := time_sleep 1 t in
          wait_loop checks t
      | OtherException name => (Propagates name, t)
      end
  end.

(** [Command.handle] *)
Definition handle (checks : list check_outcome) : run_state * Terminal :=
  let t := stdout_write (Plain "Waiting for database") (mkTerminal [] 0 0) in
  match wait_loop checks t with
  | (Returns, t) => (Returns, stdout_write (SUCCESS "Database Available") t)
  | (state, t) => (state, t)
  end.

(** The operational errors the loop catches. *)
Definition caught (outcome : check_outcome) : Prop :=
  outcome = Psychopg2OpError ∨ outcome = OperationalError.

(** ** Well-formed user tables *)

(** What the database guarantees of the user table: addresses are
    pairwise distinct ([unique=True]), so are the keys, and every key was
    handed out by the sequence. *)
Definition users_wf (db : DB) : Prop :=
  NoDup (email <$> users db)
  ∧ NoDup (user_id <$> users db)
  ∧ Forall (λ row, ∃ pk, user_id row = Some pk ∧ (pk < user_seq db)%Z) (users db).

(** ** The representation of a user *)

(** [getattr(instance, name)] for the columns the serializer declares. *)
Definition getattr (instance : User) (attribute : string) : option string :=
  if bool_decide (attribute = "email") then Some (email instance)
  else if bool_decide (attribute = "password") then Some (password instance)
  else if bool_decide (attribute = "name") then Some (name instance)
  else None.

(** [Serializer.to_representation] over a list of declared fields: every
    field that is not write-only contributes its attribute. *)
Fixpoint to_representation (fields : list (string * CharField)) (instance : User)
    : gmap string string :=
  match fields with
  | [] => ∅
  | (attribute, field) :: fields =>
      let ret := to_representation fields instance in
      if write_only field then ret
      else match getattr instance attribute with
           | Some value => <[attribute := value]> ret
           | None => ret
           end
  end.

(** [UserSerializer(instance).data] *)
Definition UserSerializer_data (instance : User) : gmap string string :=
  to_representation UserSerializer_fields instance.

(** Further sample data. *)

(** The checks of the delay test: two errors of the driver, three of the
    framework, then a check that passes. *)
Definition delayed_checks : list check_outcome :=
  [Psychopg2OpError; Psychopg2OpError; OperationalError; OperationalError;
   OperationalError; CheckPasses].

(** A complete registration request. *)
Definition registration_data : gmap string string :=
  {[ "email" := "test@example.com"; "password" := "testpass123"; "name" := "Test Name" ]}.

(** A registration request under the address of [user1]. *)
Definition duplicate_registration_data : gmap string string :=
  {[ "email" := "user@example.com"; "password" := "testpass123"; "name" := "Test Name" ]}.

(** A profile update that renames the user and changes the password. *)
Definition profile_update : gmap string string :=
  {[ "name" := "Updated name"; "password" := "newpassword123" ]}.


(** * Properties *)

(** ** The database monad *)

Lemma bind_ok {A B : Type} (c : M A) (k : A → M B) db a db' :
  c db = (Ok a, db') → (c ≫= k) db = k a db'.
Proof. intros Hc. unfold mbind, M_bind. by rewrite Hc. Qed.

Lemma bind_raise {A B : Type} (c : M A) (k : A → M B) db e db' :
  c db = (Raise e, db') → (c ≫= k) db = (Raise e, db').
Proof. intros Hc. unfold mbind, M_bind. by rewrite Hc. Qed.

(** ** [UserManager.create_user] *)

Lemma truthy_Some (s : string) : s ≠ "" → truthy (Some s) = true.
Proof.
  intros Hs. simpl. destruct (String.eqb_spec s ""); [done|reflexivity].
Qed.

Lemma email_taken_false table (user : User) :
  Forall (λ row, email row ≠ email user) table → email_taken table user = false.
Proof.
  intros Hfree. unfold email_taken. apply bool_decide_eq_false.
  rewrite Exists_exists. intros (row & Hrow & Heq & _).
  rewrite Forall_forall in Hfree. by apply (Hfree row).
Qed.

(** Saving a fresh instance that fits its columns and whose address is
    free appends its row. *)
Lemma save_insert (user : User) db :
  user_id user = None →
  fits_columns user →
  Forall (λ row, email row ≠ email user) (users db) →
  save user db =
    (Ok (with_id user (user_seq db)),
     set_users db (users db ++ [with_id user (user_seq db)]) (user_seq db + 1)).
Proof.
  intros Hid Hfits Hfree. unfold save.
  rewrite (bool_decide_eq_true_2 _ Hfits), (email_taken_false _ _ Hfree), Hid. reflexivity.
Qed.

(** The shape of every successful [create_user]. *)
Lemma create_user_ok `{Hasher} (address : string) raw_password extra_fields db user db' :
  create_user (Some address) raw_password extra_fields db = (Ok user, db') →
  user = with_id (set_password (model (normalize_email (Some address)) extra_fields) raw_password)
                 (user_seq db)
  ∧ db' = set_users db (users db ++ [user]) (user_seq db + 1).
Proof.
  unfold create_user. destruct (negb (truthy (Some address))); [by inversion 1|].
  unfold mbind, M_bind, save. simpl user_id.
  destruct (negb (bool_decide _)); [by inversion 1|].
  destruct (email_taken _ _); [by inversion 1|].
  unfold mret, M_ret. inversion 1; subst. done.
Qed.

(** A [create_user] that raises has written nothing. *)
Lemma create_user_raise `{Hasher} (address : option string) raw_password extra_fields db e db' :
  create_user address raw_password extra_fields db = (Raise e, db') → db' = db.
Proof.
  unfold create_user. destruct (negb (truthy address)); [by inversion 1|].
  unfold mbind, M_bind, save. simpl user_id.
  destruct (negb (bool_decide _)); [by inversion 1|].
  destruct (email_taken _ _); [by inversion 1|].
  unfold mret, M_ret. inversion 1.
Qed.

Lemma create_user_runs `{Hasher} (address : string) raw_password extra_fields db :
  address ≠ "" →
  fits_columns (set_password (model (normalize_email (Some address)) extra_fields) raw_password) →
  Forall (λ row, email row ≠ normalize_email (Some address)) (users db) →
  ∃ user db', create_user (Some address) raw_password extra_fields db = (Ok user, db').
Proof.
  intros Haddr Hfits Hfree. unfold create_user. rewrite (truthy_Some _ Haddr).
  cbn [negb]. unfold mbind, M_bind. cbv beta. rewrite save_insert; [|done..].
  by eexists _, _.
Qed.

(** ** [normalize_email] *)

Lemma rsplit_at_None (s : string) :
  rsplit_at s = None ↔ ¬ In "@"%char (list_ascii_of_string s).
Proof.
  induction s as [|c s IH]; simpl; [tauto|].
  destruct (rsplit_at s) as [[l d]|].
  - split; [done|]. intros Hno. exfalso.
    assert (¬ In "@"%char (list_ascii_of_string s)) as Hs by tauto.
    apply IH in Hs. done.
  - destruct (Ascii.eqb_spec c "@") as [->|Hc].
    + split; [done|]. intros Hno. exfalso. apply Hno. by left.
    + split; [|done]. intros _ [Heq|Hin]; [done|]. by apply IH.
Qed.

(** Splitting at the last ['@'] finds the decomposition whose second part
    holds no ['@']. *)
Lemma rsplit_at_app (email_name domain_part : string) :
  ¬ In "@"%char (list_ascii_of_string domain_part) →
  rsplit_at (email_name ++ "@" ++ domain_part) = Some (email_name, domain_part).
Proof.
  intros Hno. apply rsplit_at_None in Hno.
  induction email_name as [|c l IH].
  - change (rsplit_at ("" ++ "@" ++ domain_part))
      with (match rsplit_at domain_part with
            | Some (l, d) => Some (String "@" l, d)
            | None => Some ("", domain_part)
            end).
    by rewrite Hno.
  - change (rsplit_at (String c l ++ "@" ++ domain_part))
      with (match rsplit_at (l ++ "@" ++ domain_part) with
            | Some (l, d) => Some (String c l, d)
            | None => if Ascii.eqb c "@" then Some ("", l ++ "@" ++ domain_part) else None
            end).
    by rewrite IH.
Qed.

Lemma normalize_email_domain (email_name domain_part : string) :
  ¬ In "@"%char (list_ascii_of_string domain_part) →
  normalize_email (Some (email_name ++ "@" ++ domain_part))
  = email_name ++ "@" ++ lower domain_part.
Proof. intros Hno. unfold normalize_email. simpl default. by rewrite rsplit_at_app. Qed.

Lemma normalize_email_no_domain (address : string) :
  ¬ In "@"%char (list_ascii_of_string address) → normalize_email (Some address) = address.
Proof.
  intros Hno. apply rsplit_at_None in Hno. unfold normalize_email. simpl. by rewrite Hno.
Qed.

(** ** Claims about the user store *)

(** C5, as the code has it: [create_user] called with an email that is
    missing ([None]) or empty raises [ValueError] with the message of the
    manager, and the database is left as it was: no user is persisted. *)
Theorem create_user_without_email_raises_ValueError `{Hasher}
    (raw_password : option string) (extra_fields : ExtraFields) (db : DB) :
  create_user None raw_password extra_fields db
    = (Raise (ValueError "User must have an email address."), db)
  ∧ create_user (Some "") raw_password extra_fields db
    = (Raise (ValueError "User must have an email address."), db).
Proof. split; reflexivity. Qed.

(** C5 as stated fails: with an empty email the exception raised is not a
    [ValidationError], whatever its message and code. *)
Lemma create_user_empty_email_not_ValidationError :
  ¬ ∃ msg code,
      (create_user (H := prefix_hasher) (Some "") (Some "testpass123") no_extra empty_db).1
      = Raise (ValidationError msg code).
Proof. intros (msg & code & Heq). vm_compute in Heq. discriminate Heq. Qed.

(** C6: for a non-empty email, any password and any extra fields,
    whenever [create_user] returns a user, the one row it appended to the
    user table is that user, its password column is the hash of the
    supplied password, and it differs from the plaintext as soon as the
    hasher does not map that password to itself; a call that raises writes
    nothing. With values that fit the columns and an address that is free
    in the table, the call does return. *)
Theorem create_user_stores_password_hash `{Hasher}
    (address : string) (raw_password : option string) (extra_fields : ExtraFields) (db : DB) :
  address ≠ "" →
  (∀ user db',
     create_user (Some address) raw_password extra_fields db = (Ok user, db') →
     users db' = (users db ++ [user])%list
     ∧ password user = make_password raw_password
     ∧ (∀ raw, raw_password = Some raw → make_password (Some raw) ≠ raw → password user ≠ raw))
  ∧ (∀ e db', create_user (Some address) raw_password extra_fields db = (Raise e, db') → db' = db)
  ∧ (fits_columns (set_password (model (normalize_email (Some address)) extra_fields)
                                raw_password) →
     Forall (λ row, email row ≠ normalize_email (Some address)) (users db) →
     ∃ user db', create_user (Some address) raw_password extra_fields db = (Ok user, db')).
Proof.
  intros Haddr. split_and!.
  - intros user db' [-> ->]%create_user_ok. simpl.
    split_and!; [done..|]. by intros raw -> Hne.
  - intros e db'. apply create_user_raise.
  - by apply create_user_runs.
Qed.

Lemma create_user_stores_password_hash_witness :
  ∃ user db',
    create_user (H := prefix_hasher) (Some "user@example.com") (Some "testpass123")
                no_extra empty_db = (Ok user, db')
    ∧ users db' = [user]
    ∧ password user = "plain$testpass123"
    ∧ password user ≠ "testpass123".
Proof.
  destruct (create_user_stores_password_hash (H := prefix_hasher)
              "user@example.com" (Some "testpass123") no_extra empty_db)
    as (Hok & _ & Hruns); [discriminate|].
  destruct Hruns as (user & db' & Hrun).
  - unfold fits_columns. simpl. lia.
  - simpl. constructor.
  - destruct (Hok user db' Hrun) as (Husers & Hhash & Hplain).
    exists user, db'. split_and!; [done..|].
    apply (Hplain "testpass123"); [reflexivity|discriminate].
Defined.

(** C7: for a non-empty email, whenever [create_user] returns a user, that
    user is in the table and its email is the normalized input: written as
    a local part, an ['@'] and a domain free of ['@'], the input is stored
    with the local part as given and the domain in lower case; an input
    without ['@'] is stored as given. With values that fit the columns and
    an address that is free in the table, the call does return. *)
Theorem create_user_normalizes_email `{Hasher}
    (address : string) (raw_password : option string) (extra_fields : ExtraFields) (db : DB) :
  address ≠ "" →
  (∀ user db',
     create_user (Some address) raw_password extra_fields db = (Ok user, db') →
     user ∈ users db'
     ∧ (∀ email_name domain_part,
          address = email_name ++ "@" ++ domain_part →
          ¬ In "@"%char (list_ascii_of_string domain_part) →
          email user = email_name ++ "@" ++ lower domain_part)
     ∧ (¬ In "@"%char (list_ascii_of_string address) → email user = address))
  ∧ (fits_columns (set_password (model (normalize_email (Some address)) extra_fields)
                                raw_password) →
     Forall (λ row, email row ≠ normalize_email (Some address)) (users db) →
     ∃ user db', create_user (Some address) raw_password extra_fields db = (Ok user, db')).
Proof.
  intros Haddr. split; [|by apply create_user_runs].
  intros user db' [Huser ->]%create_user_ok.
  split; [simpl; apply elem_of_app; right; by left|].
  rewrite Huser. simpl email. split.
  - intros email_name domain_part -> Hno. by apply normalize_email_domain.
  - apply normalize_email_no_domain.
Qed.

Lemma create_user_normalizes_email_witness :
  ∃ user db',
    create_user (H := prefix_hasher) (Some "Test1@EXAMPLE.Com") (Some "sample123")
                no_extra empty_db = (Ok user, db')
    ∧ user ∈ users db'
    ∧ email user = "Test1@example.com".
Proof.
  destruct (create_user_normalizes_email (H := prefix_hasher)
              "Test1@EXAMPLE.Com" (Some "sample123") no_extra empty_db)
    as (Hok & Hruns); [discriminate|].
  destruct Hruns as (user & db' & Hrun).
  - unfold fits_columns. simpl. lia.
  - simpl. constructor.
  - destruct (Hok user db' Hrun) as (Hin & Hsplit & _).
    exists user, db'. split_and!; [done..|].
    apply (Hsplit "Test1" "EXAMPLE.Com"); [reflexivity|].
    simpl. intros Hin'. decompose [or] Hin'; discriminate || done.
Defined.

(** ** [AuthTokenSerializer.validate] *)

(** The two failure causes of the modelled backend. *)
Lemma authenticate_unknown_email `{Hasher} {Request : Type}
    (request : option Request) (address raw_password : string) db :
  Forall (λ row, email row ≠ address) (users db) →
  authenticate request (Some address) (Some raw_password) db = None.
Proof.
  intros Hunknown. unfold authenticate. simpl.
  destruct (list_find _ _) as [[i row]|] eqn:Hfind; [|done].
  apply list_find_Some in Hfind as (Hi & Heq & _).
  rewrite Forall_forall in Hunknown.
  destruct (Hunknown row); [|done]. by eapply list_elem_of_lookup_2.
Qed.

Lemma authenticate_wrong_password `{Hasher} {Request : Type}
    (request : option Request) (address raw_password : string) db :
  Forall (λ row, email row = address → check_password raw_password (password row) = false)
         (users db) →
  authenticate request (Some address) (Some raw_password) db = None.
Proof.
  intros Hwrong. unfold authenticate. simpl.
  destruct (list_find _ _) as [[i row]|] eqn:Hfind; [|done].
  apply list_find_Some in Hfind as (Hi & Heq & _).
  rewrite Forall_forall in Hwrong. simpl.
  rewrite (Hwrong row); [done| |done]. by eapply list_elem_of_lookup_2.
Qed.

(** C8: whatever backend [authenticate] stands for, any two calls of
    [validate] whose authentication fails, for whichever cause (unknown
    email, password mismatch), on whichever request and database, raise
    the very same exception, with the same message and code, and leave the
    database untouched: the response does not tell the causes apart. *)
Theorem validate_failures_indistinguishable {Request : Type}
    (backend : AuthBackend Request)
    (context1 context2 : gmap string Request) (attrs1 attrs2 : gmap string attr)
    (db1 db2 : DB) :
  backend (context1 !! "request") (attr_str (attrs1 !! "email"))
          (attr_str (attrs1 !! "password")) db1 = None →
  backend (context2 !! "request") (attr_str (attrs2 !! "email"))
          (attr_str (attrs2 !! "password")) db2 = None →
  validate backend context1 attrs1 db1
    = (Raise (ValidationError "Unable to authenticate with provided credentials."
                              "authorization"), db1)
  ∧ (validate backend context1 attrs1 db1).1 = (validate backend context2 attrs2 db2).1.
Proof.
  intros Hfail1 Hfail2. unfold validate, mbind, M_bind, get_db. simpl.
  rewrite Hfail1, Hfail2. done.
Qed.

(** ** [UserSerializer] *)

Lemma lstrip_length (s : string) : (String.length (lstrip s) ≤ String.length s)%nat.
Proof.
  induction s as [|c s IH]; simpl; [done|].
  destruct (is_space c); simpl; lia.
Qed.

Lemma rstrip_length (s : string) : (String.length (rstrip s) ≤ String.length s)%nat.
Proof.
  induction s as [|c s IH]; simpl; [done|].
  destruct (rstrip s) as [|c' r]; [destruct (is_space c)|]; simpl in *; lia.
Qed.

Lemma strip_length (s : string) : (String.length (strip s) ≤ String.length s)%nat.
Proof.
  unfold strip. etrans; [apply lstrip_length|apply rstrip_length].
Qed.

(** A field that fails always reports at least one message. *)
Lemma run_validation_messages (field : CharField) (data : string) messages :
  run_validation field data = inr messages → messages ≠ [].
Proof.
  unfold run_validation.
  destruct (_ || _).
  - destruct (allow_blank field); [done|]. by intros [= <-].
  - destruct (run_validators _ _) eqn:Hv; [done|]. by intros [= <-].
Qed.

(** The password field of the serializer rejects fewer than 5 characters,
    trimmed or not. *)
Lemma password_too_short (field : CharField) (data : string) :
  min_length field = Some 5%nat → allow_blank field = false →
  (String.length data < 5)%nat →
  ∃ messages, run_validation field data = inr messages.
Proof.
  intros Hmin Hblank Hlen. unfold run_validation. rewrite Hblank.
  destruct (_ || _); [by eexists|].
  assert (∃ m ms, run_validators field (if trim_whitespace field then strip data else data)
                  = m :: ms) as (m & ms & ->); [|by eexists].
  unfold run_validators. rewrite Hmin.
  rewrite (bool_decide_eq_true_2 (_ < 5)%nat).
  - destruct (max_length field) as [n|]; [destruct (bool_decide _)|]; by eexists _, _.
  - destruct (trim_whitespace field); [pose proof (strip_length data)|]; lia.
Qed.

(** C10: a request whose password has fewer than 5 characters does not
    pass the serializer, on create (no instance) as on update (full or
    partial): validation raises the field errors, [password] among the
    fields named, before [create] or [update] runs, so that the database
    is left as it was. *)
Theorem short_password_rejected `{Hasher} `{EmailValidator}
    (instance : option User) (partial : bool) (data : gmap string string)
    (raw_password : string) (db : DB) :
  data !! "password" = Some raw_password →
  (String.length raw_password < 5)%nat →
  ∃ errors,
    UserSerializer_save instance partial data db = (Raise (FieldErrors errors), db)
    ∧ "password" ∈ errors.*1.
Proof.
  intros Hdata Hlen.
  destruct (password_too_short (mkCharField (Some 128%nat) (Some 5%nat) true false true)
              raw_password eq_refl eq_refl Hlen) as (messages & Hmsgs).
  pose proof (run_validation_messages _ _ _ Hmsgs) as Hne.
  destruct messages as [|message messages]; [done|].
  unfold UserSerializer_save, is_valid, mbind, M_bind, get_db, UserSerializer_fields.
  cbn [validate_fields].
  unfold validate_field at 2. rewrite Hdata, Hmsgs.
  destruct (validate_field instance partial (users db) data "name" _) as [[name_value|]|name_messages];
    destruct (validate_field instance partial (users db) data "email" _)
      as [[email_value|]|email_messages];
    cbn [fmap list_fmap app];
    try (eexists; split; [reflexivity|]; cbn [fmap list_fmap fst]; set_solver).
  all: destruct email_messages as [|m ms]; cbn [fmap list_fmap app];
    eexists; (split; [reflexivity|]); cbn [fmap list_fmap fst];
    rewrite ?fmap_app; set_solver.
Qed.

Lemma validate_failures_indistinguishable_witness :
  validate (authenticate (H := prefix_hasher) (Request := unit)) ∅ unknown_email_attrs one_user_db
    = (Raise (ValidationError "Unable to authenticate with provided credentials."
                              "authorization"), one_user_db)
  ∧ (validate (authenticate (H := prefix_hasher) (Request := unit)) ∅
              unknown_email_attrs one_user_db).1
    = (validate (authenticate (H := prefix_hasher) (Request := unit)) ∅
                wrong_password_attrs one_user_db).1.
Proof.
  apply (validate_failures_indistinguishable
           (authenticate (H := prefix_hasher) (Request := unit))
           ∅ ∅ unknown_email_attrs wrong_password_attrs one_user_db one_user_db).
  - apply (authenticate_unknown_email (H := prefix_hasher)).
    repeat constructor. discriminate.
  - apply (authenticate_wrong_password (H := prefix_hasher)).
    repeat constructor.
Defined.

Lemma short_password_rejected_witness :
  ∃ errors,
    UserSerializer_save (H := prefix_hasher) (H0 := has_at) None false
                        short_password_data empty_db
      = (Raise (FieldErrors errors), empty_db)
    ∧ "password" ∈ errors.*1.
Proof.
  apply (short_password_rejected (H := prefix_hasher) (H0 := has_at)
           None false short_password_data "pw" empty_db).
  - reflexivity.
  - simpl. lia.
Defined.

(** ** The owner-scoped querysets *)

Global Instance id_desc_total : Total id_desc.
Proof. intros a b. unfold id_desc. lia. Qed.

Global Instance id_desc_trans : Transitive id_desc.
Proof. intros a b c. unfold id_desc. lia. Qed.

Global Instance name_desc_total `{RecipeAttr A} : Total (name_desc (A := A)).
Proof.
  intros a b. unfold name_desc.
  destruct (String.leb_total (attr_name b) (attr_name a)) as [Hle|Hle];
    rewrite Hle; simpl; auto.
Qed.

(** The comparison of strings is transitive. *)
Lemma string_compare_trans (s1 s2 s3 : string) :
  String.compare s1 s2 ≠ Gt → String.compare s2 s3 ≠ Gt → String.compare s1 s3 ≠ Gt.
Proof.
  revert s2 s3. induction s1 as [|c1 s1 IH]; intros [|c2 s2] [|c3 s3]; simpl; try done.
  unfold Ascii.compare.
  destruct (N.compare_spec (N_of_ascii c1) (N_of_ascii c2)) as [H12|H12|H12];
    destruct (N.compare_spec (N_of_ascii c2) (N_of_ascii c3)) as [H23|H23|H23];
    destruct (N.compare_spec (N_of_ascii c1) (N_of_ascii c3)) as [H13|H13|H13];
    try done; try (intros; exfalso; lia).
  apply IH.
Qed.

Lemma string_leb_trans (s1 s2 s3 : string) :
  String.leb s1 s2 → String.leb s2 s3 → String.leb s1 s3.
Proof.
  unfold String.leb. intros H12 H23.
  pose proof (string_compare_trans s1 s2 s3) as Htrans.
  destruct (String.compare s1 s2), (String.compare s2 s3), (String.compare s1 s3);
    try done; exfalso; by apply Htrans.
Qed.

Global Instance name_desc_trans `{RecipeAttr A} : Transitive (name_desc (A := A)).
Proof. intros a b c Hab Hbc. unfold name_desc in *. by eapply string_leb_trans. Qed.

(** Rows of a table whose keys are pairwise distinct are told apart by
    their key. *)
Lemma NoDup_key_inj {A : Type} (key : A → Z) (rows : list A) x y :
  NoDup (key <$> rows) → x ∈ rows → y ∈ rows → key x = key y → x = y.
Proof.
  induction rows as [|r rows IH]; [by intros _ Hx; inversion Hx|].
  rewrite fmap_cons, NoDup_cons. intros [Hr Hnd] Hx Hy Hkey.
  apply elem_of_cons in Hx as [->|Hx]; apply elem_of_cons in Hy as [->|Hy]; try done.
  - exfalso. apply Hr. rewrite Hkey. by apply list_elem_of_fmap_2.
  - exfalso. apply Hr. rewrite <- Hkey. by apply list_elem_of_fmap_2.
  - by apply IH.
Qed.

Lemma RecipeViewSet_get_queryset_perm (user : User) (queryset : list Recipe) :
  RecipeViewSet_get_queryset user queryset
  ≡ₚ filter (λ row, owned_by user (recipe_user row)) queryset.
Proof. apply merge_sort_Permutation. Qed.

Lemma RecipeViewSet_get_queryset_sorted (user : User) (queryset : list Recipe) :
  StronglySorted id_desc (RecipeViewSet_get_queryset user queryset).
Proof. apply StronglySorted_merge_sort; apply _. Qed.

Lemma BaseRecipeAttrViewSet_get_queryset_perm `{RecipeAttr A} (user : User) (queryset : list A) :
  BaseRecipeAttrViewSet_get_queryset user queryset
  ≡ₚ filter (λ row, owned_by user (attr_user row)) queryset.
Proof. apply merge_sort_Permutation. Qed.

Lemma BaseRecipeAttrViewSet_get_queryset_sorted `{RecipeAttr A} (user : User) (queryset : list A) :
  StronglySorted name_desc (BaseRecipeAttrViewSet_get_queryset user queryset).
Proof. apply StronglySorted_merge_sort; apply _. Qed.

(** C9: the recipe list of a user is a rearrangement of exactly the rows
    of the recipe table owned by that user, ordered by descending key;
    with keys that are pairwise distinct, every table holding the same
    rows of that user, wherever and in whatever order the rows of other
    users were inserted, yields the same list. *)
Theorem recipe_list_descending_id (user : User) (db db' : DB) :
  NoDup (recipe_id <$> recipes db) →
  filter (λ row, owned_by user (recipe_user row)) (recipes db')
    ≡ₚ filter (λ row, owned_by user (recipe_user row)) (recipes db) →
  RecipeViewSet_list user db ≡ₚ filter (λ row, owned_by user (recipe_user row)) (recipes db)
  ∧ StronglySorted id_desc (RecipeViewSet_list user db)
  ∧ RecipeViewSet_list user db' = RecipeViewSet_list user db.
Proof.
  intros Hkeys Hsame. unfold RecipeViewSet_list.
  split_and!; [apply RecipeViewSet_get_queryset_perm|apply RecipeViewSet_get_queryset_sorted|].
  apply (StronglySorted_unique_strong id_desc);
    [|apply RecipeViewSet_get_queryset_sorted..|].
  - intros x1 x2 Hx1 Hx2 H12 H21.
    rewrite RecipeViewSet_get_queryset_perm, Hsame in Hx1.
    rewrite RecipeViewSet_get_queryset_perm in Hx2.
    apply list_elem_of_filter in Hx1 as [_ Hx1]. apply list_elem_of_filter in Hx2 as [_ Hx2].
    apply (NoDup_key_inj recipe_id (recipes db)); [done..|].
    unfold id_desc in *. lia.
  - by rewrite !RecipeViewSet_get_queryset_perm.
Qed.

Lemma recipe_list_descending_id_witness :
  RecipeViewSet_list user1 interleaved_db
    ≡ₚ filter (λ row, owned_by user1 (recipe_user row)) (recipes interleaved_db)
  ∧ StronglySorted id_desc (RecipeViewSet_list user1 interleaved_db)
  ∧ RecipeViewSet_list user1 reordered_db = RecipeViewSet_list user1 interleaved_db.
Proof.
  apply (recipe_list_descending_id user1 interleaved_db reordered_db).
  - exact (bool_decide_unpack (NoDup (recipe_id <$> recipes interleaved_db)) I).
  - vm_compute. apply perm_swap.
Defined.

(** C4, as the code has it: the tag list and the ingredient list of a
    user are rearrangements of exactly the rows owned by that user,
    ordered by descending name ([order_by('-name')]): every row is
    followed only by rows whose name compares smaller or equal. *)
Theorem attr_lists_descending_name (user : User) (db : DB) :
  (StronglySorted name_desc (TagViewSet_list user db)
   ∧ TagViewSet_list user db ≡ₚ filter (λ row, owned_by user (tag_user row)) (tags db))
  ∧ (StronglySorted name_desc (IngredientViewSet_list user db)
     ∧ IngredientViewSet_list user db
       ≡ₚ filter (λ row, owned_by user (ingredient_user row)) (ingredients db)).
Proof.
  unfold TagViewSet_list, IngredientViewSet_list. split_and!.
  - apply BaseRecipeAttrViewSet_get_queryset_sorted.
  - exact (BaseRecipeAttrViewSet_get_queryset_perm (A := Tag) user (tags db)).
  - apply BaseRecipeAttrViewSet_get_queryset_sorted.
  - exact (BaseRecipeAttrViewSet_get_queryset_perm (A := Ingredient) user (ingredients db)).
Qed.

(** C4 as stated fails: with Kale and Vanilla stored for one user, both
    lists come back as Vanilla, Kale, which is not ascending by name. *)
Lemma attr_lists_not_ascending :
  TagViewSet_list user1 kale_vanilla_db = [mkTag 2 "Vanilla" 1; mkTag 1 "Kale" 1]
  ∧ IngredientViewSet_list user1 kale_vanilla_db
    = [mkIngredient 2 "Vanilla" 1; mkIngredient 1 "Kale" 1]
  ∧ ¬ Sorted name_asc (TagViewSet_list user1 kale_vanilla_db)
  ∧ ¬ Sorted name_asc (IngredientViewSet_list user1 kale_vanilla_db).
Proof.
  split_and!; [reflexivity..| |].
  - intros Hs. vm_compute in Hs. inversion Hs as [|? ? _ Hhd]; subst.
    inversion Hhd as [|? ? Hle]; subst. exact Hle.
  - intros Hs. vm_compute in Hs. inversion Hs as [|? ? _ Hhd]; subst.
    inversion Hhd as [|? ? Hle]; subst. exact Hle.
Qed.

(** Rows that another user owns do not reach the filter of this user. *)
Lemma filter_owned_frame {A : Type} (owner : A → Z) (user : User) (a b : Z) (t t' : list A) :
  user_id user = Some b → a ≠ b →
  filter (λ row, owner row ≠ a) t = filter (λ row, owner row ≠ a) t' →
  filter (λ row, owned_by user (owner row)) t = filter (λ row, owned_by user (owner row)) t'.
Proof.
  intros Hb Hab Heq.
  assert (∀ row, owned_by user (owner row) → owner row ≠ a) as Himp.
  { intros row Hrow. unfold owned_by in Hrow. congruence. }
  rewrite <- (list_filter_filter_l (λ row, owned_by user (owner row)) (λ row, owner row ≠ a) t Himp).
  rewrite <- (list_filter_filter_l (λ row, owned_by user (owner row)) (λ row, owner row ≠ a) t' Himp).
  by rewrite Heq.
Qed.

Lemma get_object_Ok {A : Type} (key : A → Z) (queryset : list A) pk row :
  get_object key queryset pk = Ok row → row ∈ queryset ∧ key row = pk.
Proof.
  unfold get_object. destruct (list_find _ _) as [[i found]|] eqn:Hfind; [|done].
  intros [= ->]. apply list_find_Some in Hfind as (Hi & Hkey & _).
  split; [by eapply list_elem_of_lookup_2|done].
Qed.

Lemma get_queryset_owned {A : Type} (owner : A → Z) (R : relation A)
    `{∀ x y, Decision (R x y)} (user : User) (b : Z) (queryset : list A) :
  user_id user = Some b →
  Forall (λ row, owner row = b)
         (merge_sort R (filter (λ row, owned_by user (owner row)) queryset)).
Proof.
  intros Hb. apply Forall_forall. intros row Hrow.
  rewrite merge_sort_Permutation in Hrow.
  apply list_elem_of_filter in Hrow as [Hrow _]. unfold owned_by in Hrow. congruence.
Qed.

(** C3: for users A and B with distinct keys, what B lists holds rows
    owned by B alone, for recipes, tags and ingredients, and so does what
    B retrieves (a recipe, or the tag or ingredient looked up by an update
    or a destroy); and whatever rows A creates (or changes, or removes) in
    the three tables, B's lists and B's retrievals are the same as
    before. *)
Theorem queries_confined_to_owner (user : User) (a b : Z) (db db' : DB) :
  user_id user = Some b → a ≠ b → differ_only_for a db db' →
  (Forall (λ row, recipe_user row = b) (RecipeViewSet_list user db')
   ∧ Forall (λ row, tag_user row = b) (TagViewSet_list user db')
   ∧ Forall (λ row, ingredient_user row = b) (IngredientViewSet_list user db'))
  ∧ (∀ pk,
       (∀ row, RecipeViewSet_retrieve user pk db' = Ok row → recipe_user row = b)
       ∧ (∀ row, TagViewSet_get_object user pk db' = Ok row → tag_user row = b)
       ∧ (∀ row, IngredientViewSet_get_object user pk db' = Ok row → ingredient_user row = b))
  ∧ (RecipeViewSet_list user db' = RecipeViewSet_list user db
     ∧ TagViewSet_list user db' = TagViewSet_list user db
     ∧ IngredientViewSet_list user db' = IngredientViewSet_list user db)
  ∧ (∀ pk,
       RecipeViewSet_retrieve user pk db' = RecipeViewSet_retrieve user pk db
       ∧ TagViewSet_get_object user pk db' = TagViewSet_get_object user pk db
       ∧ IngredientViewSet_get_object user pk db' = IngredientViewSet_get_object user pk db).
Proof.
  intros Hb Hab (Hrecipes & Htags & Hingredients).
  pose proof (filter_owned_frame recipe_user user a b _ _ Hb Hab Hrecipes) as Hr.
  pose proof (filter_owned_frame tag_user user a b _ _ Hb Hab Htags) as Ht.
  pose proof (filter_owned_frame ingredient_user user a b _ _ Hb Hab Hingredients) as Hi.
  unfold RecipeViewSet_retrieve, TagViewSet_get_object, IngredientViewSet_get_object,
    RecipeViewSet_list, TagViewSet_list, IngredientViewSet_list,
    RecipeViewSet_get_queryset, BaseRecipeAttrViewSet_get_queryset.
  pose proof (get_queryset_owned recipe_user id_desc user b (recipes db') Hb) as Hrecipe.
  pose proof (get_queryset_owned tag_user name_desc user b (tags db') Hb) as Htag.
  pose proof (get_queryset_owned ingredient_user name_desc user b (ingredients db') Hb)
    as Hingredient.
  simpl in Ht, Hi |- *.
  split_and!; [done..| |by rewrite Hr|by rewrite Ht|by rewrite Hi|by rewrite Hr, Ht, Hi].
  intros pk. rewrite Forall_forall in Hrecipe. rewrite Forall_forall in Htag.
  rewrite Forall_forall in Hingredient.
  split_and!; intros row [Hrow _]%get_object_Ok; auto.
Qed.

(** ** The get-or-create step *)

(** Reduces the projections of a database written out field by field. *)
Ltac db_fields :=
  cbn [users user_seq tags tag_seq ingredients ingredient_seq
       recipes recipe_seq recipe_tags recipe_ingredients] in *.

Lemma get_or_create_found `{Registry A} (owner : Z) (name : string) db i row :
  list_find (λ row, attr_user row = owner ∧ attr_name row = name) (objects db) = Some (i, row) →
  get_or_create owner name db = (Ok row, db).
Proof. intros Hfind. unfold get_or_create, mbind, M_bind, get_db. by rewrite Hfind. Qed.

Lemma get_or_create_missing `{Registry A} (owner : Z) (name : string) db :
  list_find (λ row, attr_user row = owner ∧ attr_name row = name) (objects db) = None →
  get_or_create owner name db = objects_create owner name db.
Proof. intros Hfind. unfold get_or_create, mbind, M_bind, get_db. by rewrite Hfind. Qed.

(** Attaching a tag touches the join table of the tags alone. *)
Lemma attach_tag_run (recipe : Z) (row : Tag) db :
  ∃ links,
    attach recipe row db
    = (Ok tt, mkDB (users db) (user_seq db) (tags db) (tag_seq db)
                   (ingredients db) (ingredient_seq db) (recipes db) (recipe_seq db)
                   links (recipe_ingredients db))
    ∧ (recipe, tag_id row) ∈ links.
Proof.
  unfold attach. simpl. case_bool_decide as Hin.
  - exists (recipe_tags db). split; [by destruct db|done].
  - eexists. split; [reflexivity|]. apply elem_of_app. right. by left.
Qed.

(** The get-or-create step over tag names always runs to completion. It
    appends rows to the tag table and rewrites the join table of the
    tags, and nothing else. The appended rows belong to the owner and
    carry names of the list; afterwards every name of the list has a row
    of the owner; no row is appended when every name had one before; and
    for distinct names of which the owner had none, the appended rows
    carry exactly the names of the list, in order. *)
Lemma get_or_create_tags_run (names : list string) (owner recipe : Z) (db : DB) :
  ∃ new links,
    _get_or_create (A := Tag) names owner recipe db
    = (Ok tt, mkDB (users db) (user_seq db) (tags db ++ new)
                   (tag_seq db + Z.of_nat (length new))
                   (ingredients db) (ingredient_seq db) (recipes db) (recipe_seq db)
                   links (recipe_ingredients db))
    ∧ Forall (λ row, tag_user row = owner ∧ tag_name row ∈ names) new
    ∧ (∀ name, name ∈ names →
         ∃ row, row ∈ (tags db ++ new)%list ∧ tag_user row = owner ∧ tag_name row = name)
    ∧ ((∀ name, name ∈ names →
          ∃ row, row ∈ tags db ∧ tag_user row = owner ∧ tag_name row = name) → new = [])
    ∧ (NoDup names →
       (∀ row, row ∈ tags db → tag_user row = owner → tag_name row ∉ names) →
       tag_name <$> new = names).
Proof.
  revert db. induction names as [|name names IH]; intros db.
  { exists [], (recipe_tags db). split_and!; try done.
    - destruct db; simpl. by rewrite app_nil_r, Z.add_0_r.
    - intros name Hin. by apply elem_of_nil in Hin. }
  cbn [_get_or_create].
  pose proof (get_or_create_found (A := Tag) owner name db) as Hfound.
  pose proof (get_or_create_missing (A := Tag) owner name db) as Hmissing.
  match type of Hmissing with
  | ?found = None → _ => destruct found as [[i row]|] eqn:Hfind
  end.
  - (* the name has a row of this owner: it is reused *)
    rewrite (bind_ok _ _ _ _ _ (Hfound i row eq_refl)).
    destruct (attach_tag_run recipe row db) as (links1 & Hattach & _).
    rewrite (bind_ok _ _ _ _ _ Hattach).
    apply list_find_Some in Hfind as (Hi & [Howner Hname] & _).
    apply list_elem_of_lookup_2 in Hi. simpl in Howner, Hname.
    destruct (IH (mkDB (users db) (user_seq db) (tags db) (tag_seq db)
                       (ingredients db) (ingredient_seq db) (recipes db) (recipe_seq db)
                       links1 (recipe_ingredients db)))
      as (new & links & Hrun & Hnew & Hall & Hnone & Hfresh).
    simpl in Hrun, Hall, Hnone, Hfresh.
    exists new, links. split_and!; [done| | | |].
    + eapply Forall_impl; [done|]. intros r [? ?]. split; [done|]. by apply elem_of_cons; right.
    + intros n [->|Hn]%elem_of_cons; [|by apply Hall].
      exists row. split_and!; [|done..]. apply elem_of_app. by left.
    + intros Hpresent. apply Hnone. intros n Hn. apply Hpresent. by apply elem_of_cons; right.
    + intros _ Habsent. exfalso. apply (Habsent row Hi Howner). rewrite Hname. by left.
  - (* no such row: one is created *)
    rewrite (bind_ok _ _ _ _ _ (Hmissing eq_refl)).
    apply list_find_None in Hfind. rewrite Forall_forall in Hfind.
    change (objects_create (A := Tag) owner name db) with (Tag_objects_create owner name db).
    unfold Tag_objects_create.
    set (row := mkTag (tag_seq db) name owner).
    destruct (attach_tag_run recipe row
                (mkDB (users db) (user_seq db) (tags db ++ [row]) (tag_seq db + 1)
                      (ingredients db) (ingredient_seq db) (recipes db) (recipe_seq db)
                      (recipe_tags db) (recipe_ingredients db)))
      as (links1 & Hattach & _).
    simpl in Hattach. rewrite (bind_ok _ _ _ _ _ Hattach).
    destruct (IH (mkDB (users db) (user_seq db) (tags db ++ [row]) (tag_seq db + 1)
                       (ingredients db) (ingredient_seq db) (recipes db) (recipe_seq db)
                       links1 (recipe_ingredients db)))
      as (new & links & Hrun & Hnew & Hall & Hnone & Hfresh).
    simpl in Hrun, Hall, Hnone, Hfresh.
    exists (row :: new), links. split_and!.
    + rewrite Hrun. do 2 f_equal.
      * by rewrite <- (assoc_L (++)).
      * rewrite length_cons. lia.
    + constructor; [split; [done|by left]|].
      eapply Forall_impl; [done|]. intros r [? ?]. split; [done|]. by apply elem_of_cons; right.
    + intros n [->|Hn]%elem_of_cons.
      * exists row. split_and!; [|done..]. apply elem_of_app. right. by left.
      * destruct (Hall n Hn) as (r & Hr & ? & ?). exists r. split_and!; [|done..].
        by rewrite <- (assoc_L (++)) in Hr.
    + intros Hpresent. exfalso.
      destruct (Hpresent name) as (r & Hr & ? & ?); [by left|].
      by apply (Hfind r Hr).
    + intros [Hname Hnames]%NoDup_cons Habsent. rewrite fmap_cons. f_equal.
      apply Hfresh; [done|].
      intros r [Hr|Hr]%elem_of_app Howner Hin.
      * apply (Habsent r Hr Howner). by apply elem_of_cons; right.
      * apply list_elem_of_singleton in Hr as ->. done.
Qed.

Lemma attach_ingredient_run (recipe : Z) (row : Ingredient) db :
  ∃ links,
    attach recipe row db
    = (Ok tt, mkDB (users db) (user_seq db) (tags db) (tag_seq db)
                   (ingredients db) (ingredient_seq db) (recipes db) (recipe_seq db)
                   (recipe_tags db) links)
    ∧ (recipe, ingredient_id row) ∈ links.
Proof.
  unfold attach. simpl. case_bool_decide as Hin.
  - exists (recipe_ingredients db). split; [by destruct db|done].
  - eexists. split; [reflexivity|]. apply elem_of_app. right. by left.
Qed.

(** The same step over ingredient names: it appends rows of the owner to
    the ingredient table and rewrites the join table of the ingredients,
    and nothing else. *)
Lemma get_or_create_ingredients_run (names : list string) (owner recipe : Z) (db : DB) :
  ∃ new links,
    _get_or_create (A := Ingredient) names owner recipe db
    = (Ok tt, mkDB (users db) (user_seq db) (tags db) (tag_seq db)
                   (ingredients db ++ new) (ingredient_seq db + Z.of_nat (length new))
                   (recipes db) (recipe_seq db) (recipe_tags db) links)
    ∧ Forall (λ row, ingredient_user row = owner) new.
Proof.
  revert db. induction names as [|name names IH]; intros db.
  { exists [], (recipe_ingredients db). split; [|done].
    destruct db; simpl. by rewrite app_nil_r, Z.add_0_r. }
  cbn [_get_or_create].
  pose proof (get_or_create_found (A := Ingredient) owner name db) as Hfound.
  pose proof (get_or_create_missing (A := Ingredient) owner name db) as Hmissing.
  match type of Hmissing with
  | ?found = None → _ => destruct found as [[i row]|] eqn:Hfind
  end.
  - rewrite (bind_ok _ _ _ _ _ (Hfound i row eq_refl)).
    destruct (attach_ingredient_run recipe row db) as (links1 & Hattach & _).
    rewrite (bind_ok _ _ _ _ _ Hattach).
    destruct (IH (mkDB (users db) (user_seq db) (tags db) (tag_seq db)
                       (ingredients db) (ingredient_seq db) (recipes db) (recipe_seq db)
                       (recipe_tags db) links1))
      as (new & links & Hrun & Hnew).
    by exists new, links.
  - rewrite (bind_ok _ _ _ _ _ (Hmissing eq_refl)).
    change (objects_create (A := Ingredient) owner name db)
      with (Ingredient_objects_create owner name db).
    unfold Ingredient_objects_create.
    set (row := mkIngredient (ingredient_seq db) name owner).
    destruct (attach_ingredient_run recipe row
                (mkDB (users db) (user_seq db) (tags db) (tag_seq db)
                      (ingredients db ++ [row]) (ingredient_seq db + 1)
                      (recipes db) (recipe_seq db) (recipe_tags db) (recipe_ingredients db)))
      as (links1 & Hattach & _).
    simpl in Hattach. rewrite (bind_ok _ _ _ _ _ Hattach).
    destruct (IH (mkDB (users db) (user_seq db) (tags db) (tag_seq db)
                       (ingredients db ++ [row]) (ingredient_seq db + 1)
                       (recipes db) (recipe_seq db) (recipe_tags db) links1))
      as (new & links & Hrun & Hnew).
    simpl in Hrun.
    exists (row :: new), links. split; [|by constructor].
    rewrite Hrun. do 2 f_equal.
    + by rewrite <- (assoc_L (++)).
    + rewrite length_cons. lia.
Qed.

(** The numeric ranges a recipe must respect. *)
Lemma check_ranges_ok (minutes cost : Z) db :
  (0 < minutes)%Z → (0 ≤ cost)%Z → check_ranges (Some minutes) (Some cost) db = (Ok tt, db).
Proof.
  intros Hm Hc. unfold check_ranges. simpl.
  rewrite (bool_decide_eq_false_2 (minutes ≤ 0)%Z) by lia.
  rewrite (bool_decide_eq_false_2 (cost < 0)%Z) by lia. done.
Qed.

(** The shape of a successful create: one recipe row, the tag rows and
    ingredient rows the two get-or-create steps append, and new join
    tables. *)
Lemma create_recipe_run (owner : Z) (fields : RecipeFields)
    (tag_names ingredient_names : option (list string)) (db : DB) :
  (0 < f_time_minutes fields)%Z → (0 ≤ f_price fields)%Z →
  ∃ detail new_tags new_ingredients tag_links ingredient_links,
    create_recipe owner fields tag_names ingredient_names db
    = (Ok detail,
       mkDB (users db) (user_seq db)
            (tags db ++ new_tags) (tag_seq db + Z.of_nat (length new_tags))
            (ingredients db ++ new_ingredients)
            (ingredient_seq db + Z.of_nat (length new_ingredients))
            (recipes db ++ [mkRecipe (recipe_seq db) owner (f_title fields)
                                     (f_description fields) (f_time_minutes fields)
                                     (f_price fields) (f_link fields)])
            (recipe_seq db + 1) tag_links ingredient_links)
    ∧ detail_recipe detail
      = mkRecipe (recipe_seq db) owner (f_title fields) (f_description fields)
                 (f_time_minutes fields) (f_price fields) (f_link fields)
    ∧ Forall (λ row, tag_user row = owner ∧ tag_name row ∈ default [] tag_names) new_tags
    ∧ Forall (λ row, ingredient_user row = owner) new_ingredients
    ∧ (∀ name, name ∈ default [] tag_names →
         ∃ row, row ∈ (tags db ++ new_tags)%list ∧ tag_user row = owner ∧ tag_name row = name)
    ∧ ((∀ name, name ∈ default [] tag_names →
          ∃ row, row ∈ tags db ∧ tag_user row = owner ∧ tag_name row = name) → new_tags = [])
    ∧ (NoDup (default [] tag_names) →
       (∀ row, row ∈ tags db → tag_user row = owner → tag_name row ∉ default [] tag_names) →
       tag_name <$> new_tags = default [] tag_names).
Proof.
  intros Hminutes Hprice. unfold create_recipe, atomic.
  rewrite (bind_ok _ _ _ _ _ (check_ranges_ok _ _ db Hminutes Hprice)).
  unfold Recipe_objects_create at 1.
  set (recipe := mkRecipe (recipe_seq db) owner _ _ _ _ _).
  erewrite bind_ok; [|reflexivity].
  destruct (get_or_create_tags_run (default [] tag_names) owner (recipe_id recipe)
              (mkDB (users db) (user_seq db) (tags db) (tag_seq db)
                    (ingredients db) (ingredient_seq db) (recipes db ++ [recipe])
                    (recipe_seq db + 1) (recipe_tags db) (recipe_ingredients db)))
    as (new_tags & tag_links & Htags & Hnew & Hall & Hnone & Hfresh).
  db_fields. rewrite (bind_ok _ _ _ _ _ Htags).
  destruct (get_or_create_ingredients_run (default [] ingredient_names) owner (recipe_id recipe)
              (mkDB (users db) (user_seq db) (tags db ++ new_tags)
                    (tag_seq db + Z.of_nat (length new_tags))
                    (ingredients db) (ingredient_seq db) (recipes db ++ [recipe])
                    (recipe_seq db + 1) tag_links (recipe_ingredients db)))
    as (new_ingredients & ingredient_links & Hingredients & Hnew').
  db_fields. rewrite (bind_ok _ _ _ _ _ Hingredients).
  unfold populated, mbind, M_bind, get_db, mret, M_ret.
  eexists _, new_tags, new_ingredients, tag_links, ingredient_links.
  split; [reflexivity|]. done.
Qed.

Lemma filter_all {A : Type} (P : A → Prop) `{∀ x, Decision (P x)} (l : list A) :
  Forall P l → filter P l = l.
Proof.
  induction 1 as [|x l Hx _ IH]; [done|]. by rewrite filter_cons_True, IH.
Qed.

Lemma filter_none {A : Type} (P : A → Prop) `{∀ x, Decision (P x)} (l : list A) :
  Forall (λ x, ¬ P x) l → filter P l = [].
Proof.
  induction 1 as [|x l Hx _ IH]; [done|]. by rewrite filter_cons_False, IH.
Qed.

(** One name against the registry of an owner: a row of that owner under
    that name is returned as it is and nothing is written; without one, a
    single row of that owner and name is appended and returned. *)
Lemma get_or_create_tag_spec (owner : Z) (name : string) (db : DB) :
  ((∃ row, row ∈ tags db ∧ tag_user row = owner ∧ tag_name row = name) →
   ∃ row, get_or_create (A := Tag) owner name db = (Ok row, db)
          ∧ row ∈ tags db ∧ tag_user row = owner ∧ tag_name row = name)
  ∧ ((¬ ∃ row, row ∈ tags db ∧ tag_user row = owner ∧ tag_name row = name) →
     ∃ row db', get_or_create (A := Tag) owner name db = (Ok row, db')
                ∧ tags db' = (tags db ++ [row])%list
                ∧ tag_user row = owner ∧ tag_name row = name).
Proof.
  pose proof (get_or_create_found (A := Tag) owner name db) as Hfound.
  pose proof (get_or_create_missing (A := Tag) owner name db) as Hmissing.
  match type of Hmissing with
  | ?found = None → _ => destruct found as [[i row]|] eqn:Hfind
  end.
  - apply list_find_Some in Hfind as (Hi & [Howner Hname] & _).
    apply list_elem_of_lookup_2 in Hi.
    split.
    + intros _. exists row. by rewrite (Hfound i row eq_refl).
    + intros Hno. exfalso. apply Hno. by exists row.
  - apply list_find_None in Hfind. rewrite Forall_forall in Hfind.
    split.
    + intros (row & Hrow & Howner & Hname). exfalso. by apply (Hfind row Hrow).
    + intros _. rewrite (Hmissing eq_refl). by eexists _, _.
Qed.

(** C1: each tag name of a create request is resolved by get-or-create
    against the registry of the requesting user: a tag of that user under
    that name is reused, otherwise exactly one is created. Hence, for two
    create requests of one user carrying the same tag names, every name
    has a tag of the user after the first, the second leaves the tag table
    as the first left it, and for distinct names of which the user had
    none the user ends with as many more tags as there are names. *)
Theorem recipe_tags_get_or_create
    (owner : Z) (fields1 fields2 : RecipeFields) (names : list string)
    (ingredient_names1 ingredient_names2 : option (list string)) (db : DB) :
  (0 < f_time_minutes fields1)%Z → (0 ≤ f_price fields1)%Z →
  (0 < f_time_minutes fields2)%Z → (0 ≤ f_price fields2)%Z →
  (∀ name db0,
     ((∃ row, row ∈ tags db0 ∧ tag_user row = owner ∧ tag_name row = name) →
      ∃ row, get_or_create (A := Tag) owner name db0 = (Ok row, db0)
             ∧ row ∈ tags db0 ∧ tag_user row = owner ∧ tag_name row = name)
     ∧ ((¬ ∃ row, row ∈ tags db0 ∧ tag_user row = owner ∧ tag_name row = name) →
        ∃ row db', get_or_create (A := Tag) owner name db0 = (Ok row, db')
                   ∧ tags db' = (tags db0 ++ [row])%list
                   ∧ tag_user row = owner ∧ tag_name row = name))
  ∧ ∃ detail1 db1 detail2 db2,
      create_recipe owner fields1 (Some names) ingredient_names1 db = (Ok detail1, db1)
      ∧ create_recipe owner fields2 (Some names) ingredient_names2 db1 = (Ok detail2, db2)
      ∧ (∀ name, name ∈ names →
           ∃ row, row ∈ tags db1 ∧ tag_user row = owner ∧ tag_name row = name)
      ∧ tags db2 = tags db1
      ∧ (NoDup names →
         (∀ row, row ∈ tags db → tag_user row = owner → tag_name row ∉ names) →
         length (filter (λ row, tag_user row = owner) (tags db2))
         = (length (filter (λ row, tag_user row = owner) (tags db)) + length names)%nat).
Proof.
  intros Hm1 Hp1 Hm2 Hp2. split; [intros name db0; apply get_or_create_tag_spec|].
  destruct (create_recipe_run owner fields1 (Some names) ingredient_names1 db Hm1 Hp1)
    as (detail1 & new1 & ings1 & tlinks1 & ilinks1 & Hrun1 & _ & Hnew1 & _ & Hall1 & _ & Hfresh1).
  simpl default in *.
  match type of Hrun1 with _ = (_, ?d) => set (db1 := d) in * end.
  destruct (create_recipe_run owner fields2 (Some names) ingredient_names2 db1 Hm2 Hp2)
    as (detail2 & new2 & ings2 & tlinks2 & ilinks2 & Hrun2 & _ & _ & _ & _ & Hnone2 & _).
  simpl default in *.
  rewrite (Hnone2 Hall1), app_nil_r in Hrun2. simpl length in Hrun2.
  eexists detail1, db1, detail2, _. split_and!; [exact Hrun1|exact Hrun2|exact Hall1|done|].
  intros Hnodup Habsent. simpl tags.
  rewrite filter_app, length_app. f_equal.
  rewrite filter_all.
  - by rewrite <- (Hfresh1 Hnodup Habsent), length_fmap.
  - eapply Forall_impl; [exact Hnew1|]. by intros row [? _].
Qed.

(** Two create requests with the tag names Vegan and Dinner, by a user
    without tags, leave that user with exactly 2 tag rows. *)
Lemma recipe_tags_get_or_create_witness :
  ∃ detail1 db1 detail2 db2,
    create_recipe 1 (sample_fields "Curry") (Some ["Vegan"; "Dinner"]) None empty_db
      = (Ok detail1, db1)
    ∧ create_recipe 1 (sample_fields "Salad") (Some ["Vegan"; "Dinner"]) None db1
      = (Ok detail2, db2)
    ∧ tags db2 = tags db1
    ∧ length (filter (λ row, tag_user row = 1) (tags db2)) = 2%nat.
Proof.
  destruct (recipe_tags_get_or_create 1 (sample_fields "Curry") (sample_fields "Salad")
              ["Vegan"; "Dinner"] None None empty_db)
    as (_ & detail1 & db1 & detail2 & db2 & Hrun1 & Hrun2 & _ & Hsame & Hcount);
    [simpl; lia..|].
  exists detail1, db1, detail2, db2. split_and!; [done..|].
  apply Hcount.
  - exact (bool_decide_unpack (NoDup ["Vegan"; "Dinner"]) I).
  - intros row Hrow. by apply elem_of_nil in Hrow.
Defined.

(** ** The partial update *)

Lemma check_ranges_valid (minutes cost : option Z) db :
  (∀ t, minutes = Some t → (0 < t)%Z) → (∀ p, cost = Some p → (0 ≤ p)%Z) →
  check_ranges minutes cost db = (Ok tt, db).
Proof.
  intros Hm Hc. unfold check_ranges.
  destruct minutes as [t|]; simpl.
  - rewrite (bool_decide_eq_false_2 (t ≤ 0)%Z) by (specialize (Hm t eq_refl); lia).
    destruct cost as [p|]; simpl; [|done].
    by rewrite (bool_decide_eq_false_2 (p < 0)%Z) by (specialize (Hc p eq_refl); lia).
  - destruct cost as [p|]; simpl; [|done].
    by rewrite (bool_decide_eq_false_2 (p < 0)%Z) by (specialize (Hc p eq_refl); lia).
Qed.

(** With distinct keys, the recipe found under a key is the one stored. *)
Lemma find_recipe_run (instance : Recipe) db :
  NoDup (recipe_id <$> recipes db) → instance ∈ recipes db →
  find_recipe (recipe_id instance) (recipe_user instance) db = (Ok instance, db).
Proof.
  intros Hkeys Hin. unfold find_recipe, mbind, M_bind, get_db.
  destruct (list_find _ _) as [[i row]|] eqn:Hfind.
  - apply list_find_Some in Hfind as (Hi & [Hkey _] & _).
    apply list_elem_of_lookup_2 in Hi.
    by rewrite (NoDup_key_inj recipe_id (recipes db) row instance Hkeys Hi Hin Hkey).
  - apply list_find_None in Hfind. rewrite Forall_forall in Hfind.
    by destruct (Hfind instance Hin).
Qed.

(** The tag part of an update rewrites the tag table, its sequence and
    its join table, and nothing else. *)
Lemma update_tags_run (tag_names : option (list string)) (owner recipe : Z) (db : DB) :
  ∃ tag_rows seq links,
    match tag_names with
    | Some names =>
        _ ← clear (A := Tag) recipe;
        _get_or_create (A := Tag) names owner recipe
    | None => mret tt
    end db
    = (Ok tt, mkDB (users db) (user_seq db) tag_rows seq
                   (ingredients db) (ingredient_seq db) (recipes db) (recipe_seq db)
                   links (recipe_ingredients db)).
Proof.
  destruct tag_names as [names|].
  - unfold clear at 1. erewrite bind_ok; [|reflexivity].
    destruct (get_or_create_tags_run names owner recipe
                (set_through (A := Tag) (filter (λ link, link.1 ≠ recipe) (through (A := Tag) db)) db))
      as (new & links & Hrun & _).
    rewrite Hrun. by eexists _, _, _.
  - exists (tags db), (tag_seq db), (recipe_tags db). by destruct db.
Qed.

(** An atomic write that fails has written nothing. *)
Lemma atomic_raise {A : Type} (c : M A) db e db' :
  atomic c db = (Raise e, db') → db' = db.
Proof. unfold atomic. destruct (c db) as [[a|e'] db'']; by inversion 1. Qed.

Lemma update_recipe_raise (pk owner : Z) (partial_fields : RecipePatch)
    (tag_names ingredient_names : option (list string)) (db : DB) e db' :
  update_recipe pk owner partial_fields tag_names ingredient_names db = (Raise e, db') →
  db' = db.
Proof. apply atomic_raise. Qed.

(** C2: a partial update of a stored recipe by its owner with the
    [ingredients] key present and empty, once its values are in range,
    succeeds and detaches every ingredient of the recipe: no pair of the
    join table names the recipe any more and the returned recipe has no
    ingredients, while the pairs of other recipes and the ingredient rows
    themselves stay. Every scalar field absent from the payload keeps its
    value, in the returned recipe and in the row stored, title and price
    among them. An update that fails leaves the whole database as it
    was. *)
Theorem update_with_empty_ingredients
    (instance : Recipe) (partial_fields : RecipePatch)
    (tag_names : option (list string)) (db : DB) :
  NoDup (recipe_id <$> recipes db) → instance ∈ recipes db →
  (∀ e db',
     update_recipe (recipe_id instance) (recipe_user instance) partial_fields
                   tag_names (Some []) db = (Raise e, db') → db' = db)
  ∧ ((∀ t, p_time_minutes partial_fields = Some t → (0 < t)%Z) →
     (∀ p, p_price partial_fields = Some p → (0 ≤ p)%Z) →
     ∃ detail db',
       update_recipe (recipe_id instance) (recipe_user instance) partial_fields
                     tag_names (Some []) db = (Ok detail, db')
       ∧ detail_ingredients detail = []
       ∧ (∀ ingredient, (recipe_id instance, ingredient) ∉ recipe_ingredients db')
       ∧ filter (λ link, link.1 ≠ recipe_id instance) (recipe_ingredients db')
         = filter (λ link, link.1 ≠ recipe_id instance) (recipe_ingredients db)
       ∧ ingredients db' = ingredients db
       ∧ detail_recipe detail ∈ recipes db'
       ∧ recipe_id (detail_recipe detail) = recipe_id instance
       ∧ (p_title partial_fields = None → title (detail_recipe detail) = title instance)
       ∧ (p_price partial_fields = None → price (detail_recipe detail) = price instance)
       ∧ (p_description partial_fields = None →
          description (detail_recipe detail) = description instance)
       ∧ (p_time_minutes partial_fields = None →
          time_minutes (detail_recipe detail) = time_minutes instance)
       ∧ (p_link partial_fields = None → link (detail_recipe detail) = link instance)).
Proof.
  intros Hkeys Hin. split; [intros e db'; apply update_recipe_raise|].
  intros Hminutes Hprice. unfold update_recipe, atomic.
  rewrite (bind_ok _ _ _ _ _ (find_recipe_run instance db Hkeys Hin)).
  rewrite (bind_ok _ _ _ _ _ (check_ranges_valid _ _ db Hminutes Hprice)).
  destruct (update_tags_run tag_names (recipe_user instance) (recipe_id instance) db)
    as (tag_rows & seq & links & Htags).
  rewrite (bind_ok _ _ _ _ _ Htags).
  unfold clear at 1, Recipe_save, populated, mbind, M_bind, get_db, mret, M_ret.
  cbn [_get_or_create]. unfold mret, M_ret. db_fields. cbn [set_through through Ingredient_registry].
  db_fields.
  assert (∀ ingredient,
            (recipe_id instance, ingredient)
            ∉ filter (λ link : Z * Z, link.1 ≠ recipe_id instance) (recipe_ingredients db))
    as Hdetached.
  { intros ingredient [Hne _]%list_elem_of_filter. by apply Hne. }
  eexists _, _. split; [reflexivity|].
  cbn [detail_recipe detail_ingredients]. db_fields.
  split_and!.
  - unfold attached. apply filter_none. apply Forall_forall. intros row _. apply Hdetached.
  - exact Hdetached.
  - rewrite list_filter_filter. apply list_filter_iff. tauto.
  - done.
  - apply list_elem_of_fmap. exists instance. split; [|done].
    by rewrite bool_decide_eq_true_2.
  - done.
  - intros Habsent. unfold apply_patch. simpl. by rewrite Habsent.
  - intros Habsent. unfold apply_patch. simpl. by rewrite Habsent.
  - intros Habsent. unfold apply_patch. simpl. by rewrite Habsent.
  - intros Habsent. unfold apply_patch. simpl. by rewrite Habsent.
  - intros Habsent. unfold apply_patch. simpl. by rewrite Habsent.
Qed.

Lemma update_with_empty_ingredients_witness :
  ∃ detail db',
    update_recipe 1 1 empty_patch None (Some []) tacos_db = (Ok detail, db')
    ∧ detail_ingredients detail = []
    ∧ recipe_ingredients db' = []
    ∧ title (detail_recipe detail) = "Cauliflower Tacos"
    ∧ price (detail_recipe detail) = 430%Z.
Proof.
  destruct (update_with_empty_ingredients tacos empty_patch None tacos_db) as (_ & Hupdate).
  - exact (bool_decide_unpack (NoDup (recipe_id <$> recipes tacos_db)) I).
  - by left.
  - destruct Hupdate
      as (detail & db' & Hrun & Hnone & _ & _ & _ & _ & _ & Htitle & Hprice & _);
      [discriminate..|].
    exists detail, db'. split_and!; [exact Hrun|exact Hnone| |by apply Htitle|by apply Hprice].
    vm_compute in Hrun. by injection Hrun as _ <-.
Defined.

(** ** Isolation between owners *)

(** A create request of one owner touches rows of that owner alone. *)
Lemma create_recipe_differ_only_for (owner : Z) (fields : RecipeFields)
    (tag_names ingredient_names : option (list string)) (db : DB) :
  (0 < f_time_minutes fields)%Z → (0 ≤ f_price fields)%Z →
  differ_only_for owner db (create_recipe owner fields tag_names ingredient_names db).2.
Proof.
  intros Hminutes Hprice.
  destruct (create_recipe_run owner fields tag_names ingredient_names db Hminutes Hprice)
    as (detail & new_tags & new_ingredients & tag_links & ingredient_links
        & -> & _ & Htags & Hingredients & _).
  unfold differ_only_for. simpl. rewrite !filter_app. split_and!.
  - rewrite filter_cons_False, filter_nil, app_nil_r; [done|]. simpl. by intros Hne.
  - rewrite (filter_none _ new_tags), app_nil_r; [done|].
    eapply Forall_impl; [exact Htags|]. intros row [Hrow _] Hne. by apply Hne.
  - rewrite (filter_none _ new_ingredients), app_nil_r; [done|].
    eapply Forall_impl; [exact Hingredients|]. intros row Hrow Hne. by apply Hne.
Qed.

(** So do the rows created directly through the managers. *)
Lemma objects_create_differ_only_for (owner : Z) (name : string) (db : DB) :
  differ_only_for owner db (Tag_objects_create owner name db).2
  ∧ differ_only_for owner db (Ingredient_objects_create owner name db).2.
Proof.
  unfold differ_only_for. simpl. rewrite !filter_app.
  split; split_and!; try done.
  - rewrite filter_cons_False, filter_nil, app_nil_r; [done|]. simpl. by intros Hne.
  - rewrite filter_cons_False, filter_nil, app_nil_r; [done|]. simpl. by intros Hne.
Qed.

Lemma queries_confined_to_owner_witness :
  (Forall (λ row, recipe_user row = 2%Z) (RecipeViewSet_list user2 after_create_db)
   ∧ Forall (λ row, tag_user row = 2%Z) (TagViewSet_list user2 after_create_db)
   ∧ Forall (λ row, ingredient_user row = 2%Z) (IngredientViewSet_list user2 after_create_db))
  ∧ (∀ pk,
       (∀ row, RecipeViewSet_retrieve user2 pk after_create_db = Ok row → recipe_user row = 2%Z)
       ∧ (∀ row, TagViewSet_get_object user2 pk after_create_db = Ok row → tag_user row = 2%Z)
       ∧ (∀ row, IngredientViewSet_get_object user2 pk after_create_db = Ok row
                 → ingredient_user row = 2%Z))
  ∧ (RecipeViewSet_list user2 after_create_db = RecipeViewSet_list user2 interleaved_db
     ∧ TagViewSet_list user2 after_create_db = TagViewSet_list user2 interleaved_db
     ∧ IngredientViewSet_list user2 after_create_db
       = IngredientViewSet_list user2 interleaved_db)
  ∧ (∀ pk,
       RecipeViewSet_retrieve user2 pk after_create_db
         = RecipeViewSet_retrieve user2 pk interleaved_db
       ∧ TagViewSet_get_object user2 pk after_create_db
         = TagViewSet_get_object user2 pk interleaved_db
       ∧ IngredientViewSet_get_object user2 pk after_create_db
         = IngredientViewSet_get_object user2 pk interleaved_db).
Proof.
  apply (queries_confined_to_owner user2 1 2 interleaved_db after_create_db).
  - reflexivity.
  - discriminate.
  - unfold differ_only_for. split_and!; reflexivity.
Defined.

(** * Further properties of the code *)

(** ** [wait_for_db]: [Command.handle] *)

(** A run of caught failures writes one line, sleeps one second and makes
    one check for each of them, and goes on with the remaining checks. *)
Lemma wait_loop_caught (failures rest : list check_outcome) (t : Terminal) :
  Forall caught failures →
  wait_loop (failures ++ rest) t
  = wait_loop rest
      (mkTerminal
         (stdout t ++ replicate (length failures) (Plain "Database not available, waiting 1 sec"))
         (slept t + Z.of_nat (length failures))
         (checks_made t + length failures)).
Proof.
  intros Hcaught. revert t.
  induction Hcaught as [|outcome failures Houtcome _ IH]; intros t.
  - destruct t; simpl. by rewrite app_nil_r, Z.add_0_r, Nat.add_0_r.
  - rewrite <- app_comm_cons.
    destruct Houtcome as [-> | ->]; cbn [wait_loop]; rewrite IH;
      unfold time_sleep, stdout_write, self_check; cbn [stdout slept checks_made];
      do 2 f_equal.
    all: try (rewrite <- (assoc_L (++)); reflexivity).
    all: try (rewrite length_cons; lia).
Qed.

(** The loop leaves with [Returns] only on a check that passed, reached
    through caught failures alone. *)
Lemma wait_loop_returns (checks : list check_outcome) (t t' : Terminal) :
  wait_loop checks t = (Returns, t') →
  ∃ failures rest, checks = (failures ++ CheckPasses :: rest)%list ∧ Forall caught failures.
Proof.
  revert t. induction checks as [|outcome checks IH]; intros t; [done|].
  destruct outcome; cbn [wait_loop].
  - intros _. exists [], checks. by split.
  - intros (failures & rest & -> & Hcaught)%IH.
    exists (Psychopg2OpError :: failures), rest. split; [done|]. constructor; [by left|done].
  - intros (failures & rest & -> & Hcaught)%IH.
    exists (OperationalError :: failures), rest. split; [done|]. constructor; [by right|done].
  - done.
Qed.

(** The loop itself never writes in the [SUCCESS] style. *)
Lemma wait_loop_no_success (checks : list check_outcome) (t : Terminal) text :
  SUCCESS text ∉ stdout t → SUCCESS text ∉ stdout (wait_loop checks t).2.
Proof.
  revert t. induction checks as [|outcome checks IH]; intros t Hnot; [done|].
  destruct outcome; cbn [wait_loop]; try done.
  all: apply IH; simpl; rewrite elem_of_app, list_elem_of_singleton; by intros [?|?].
Qed.

(** X1: when the first checks raise operational errors (of the driver or
    of the framework, in any mix) and the next one passes, the command
    returns; it has written the opening line, one line per failed check
    and the closing line in the [SUCCESS] style, slept one second per
    failed check, and made one check more than failed; later outcomes are
    never asked for. *)
Theorem handle_waits_until_database_up (failures rest : list check_outcome) :
  Forall caught failures →
  handle (failures ++ CheckPasses :: rest)
  = (Returns,
     mkTerminal
       ([Plain "Waiting for database"]
        ++ replicate (length failures) (Plain "Database not available, waiting 1 sec")
        ++ [SUCCESS "Database Available"])
       (Z.of_nat (length failures))
       (S (length failures))).
Proof.
  intros Hcaught. unfold handle. rewrite (wait_loop_caught _ _ _ Hcaught).
  cbn [wait_loop]. unfold stdout_write, self_check. cbn [stdout slept checks_made].
  by rewrite Z.add_0_l, app_nil_l, <- (assoc_L (++)).
Qed.

Lemma handle_waits_until_database_up_witness :
  handle delayed_checks
  = (Returns,
     mkTerminal
       [Plain "Waiting for database";
        Plain "Database not available, waiting 1 sec";
        Plain "Database not available, waiting 1 sec";
        Plain "Database not available, waiting 1 sec";
        Plain "Database not available, waiting 1 sec";
        Plain "Database not available, waiting 1 sec";
        SUCCESS "Database Available"]
       5 6).
Proof.
  apply (handle_waits_until_database_up
           [Psychopg2OpError; Psychopg2OpError; OperationalError; OperationalError;
            OperationalError] []).
  repeat (constructor; [by (left + right)|]). constructor.
Defined.

(** X2: an exception of a check that is not one of the two operational
    errors is not caught: it leaves the command at once, after the lines
    and sleeps of the failures before it, and the closing line is never
    written. *)
Theorem handle_propagates_other_exceptions
    (failures rest : list check_outcome) (name : string) :
  Forall caught failures →
  handle (failures ++ OtherException name :: rest)
  = (Propagates name,
     mkTerminal
       ([Plain "Waiting for database"]
        ++ replicate (length failures) (Plain "Database not available, waiting 1 sec"))
       (Z.of_nat (length failures))
       (S (length failures))).
Proof.
  intros Hcaught. unfold handle. rewrite (wait_loop_caught _ _ _ Hcaught).
  cbn [wait_loop]. unfold stdout_write, self_check. cbn [stdout slept checks_made].
  by rewrite Z.add_0_l, app_nil_l.
Qed.

Lemma handle_propagates_other_exceptions_witness :
  handle [OperationalError; OtherException "ImproperlyConfigured"; CheckPasses]
  = (Propagates "ImproperlyConfigured",
     mkTerminal [Plain "Waiting for database"; Plain "Database not available, waiting 1 sec"]
                1 2).
Proof.
  apply (handle_propagates_other_exceptions [OperationalError] [CheckPasses]
           "ImproperlyConfigured").
  repeat (constructor; [by (left + right)|]). constructor.
Defined.

(** X3: the command reports the database as available exactly when it
    returns, and it returns exactly when some check passed after caught
    failures only; as long as every check raised an operational error it
    is still waiting, one second slept per check. *)
Theorem handle_reports_available_only_when_up (checks : list check_outcome) :
  (SUCCESS "Database Available" ∈ stdout (handle checks).2 ↔ (handle checks).1 = Returns)
  ∧ ((handle checks).1 = Returns ↔
     ∃ failures rest, checks = (failures ++ CheckPasses :: rest)%list ∧ Forall caught failures)
  ∧ (Forall caught checks →
     (handle checks).1 = StillWaiting ∧ slept (handle checks).2 = Z.of_nat (length checks)).
Proof.
  split_and!.
  - unfold handle.
    pose proof (wait_loop_no_success checks
                  (stdout_write (Plain "Waiting for database") (mkTerminal [] 0 0))
                  "Database Available") as Hnot.
    destruct (wait_loop checks _) as [[| name |] t]; simpl in *.
    + split; [done|]. intros _. apply elem_of_app. right. by left.
    + split; [|done]. intros Hin. exfalso. apply Hnot; [|done].
      intros Hin'. apply list_elem_of_singleton in Hin'. discriminate.
    + split; [|done]. intros Hin. exfalso. apply Hnot; [|done].
      intros Hin'. apply list_elem_of_singleton in Hin'. discriminate.
  - split.
    + unfold handle.
      destruct (wait_loop checks _) as [[| name |] t] eqn:Hloop; simpl; try done.
      intros _. by eapply wait_loop_returns.
    + intros (failures & rest & -> & Hcaught).
      unfold handle. by rewrite (wait_loop_caught _ _ _ Hcaught).
  - intros Hcaught. unfold handle.
    rewrite <- (app_nil_r checks), (wait_loop_caught _ _ _ Hcaught). simpl.
    split; [done|]. by rewrite app_nil_r.
Qed.

(** ** The user table under [save] *)

Lemma save_raise (user : User) db e db' : save user db = (Raise e, db') → db' = db.
Proof.
  unfold save. destruct (negb (bool_decide _)); [by inversion 1|].
  destruct (email_taken _ _); [by inversion 1|].
  destruct (user_id user); by inversion 1.
Qed.

(** A successful update of a stored key puts the saved object in the place
    of every row under that key. *)
Lemma save_update (user : User) (pk : Z) db saved db' :
  user_id user = Some pk →
  save user db = (Ok saved, db') →
  saved = user
  ∧ db' = set_users db
            ((λ row, if bool_decide (user_id row = Some pk) then user else row) <$> users db)
            (user_seq db)
  ∧ fits_columns user
  ∧ ¬ Exists (λ row, email row = email user ∧ user_id row ≠ Some pk) (users db).
Proof.
  intros Hpk. unfold save.
  destruct (bool_decide (fits_columns user)) eqn:Hfits; [|by inversion 1].
  apply bool_decide_eq_true in Hfits. cbn [negb].
  unfold email_taken. rewrite Hpk.
  case_bool_decide as Htaken; [by inversion 1|].
  inversion 1; subst. done.
Qed.

Lemma wf_stored_id db row :
  users_wf db → row ∈ users db → ∃ pk, user_id row = Some pk ∧ (pk < user_seq db)%Z.
Proof.
  intros (_ & _ & Hbound) Hrow. rewrite Forall_forall in Hbound. by apply Hbound.
Qed.

(** Replacing the rows under one key by an object of that key keeps the
    keys, and keeps the addresses distinct when no other row holds the
    address of the object. *)
Lemma replace_keeps_ids (user : User) (pk : Z) (table : list User) :
  user_id user = Some pk →
  user_id <$> ((λ row, if bool_decide (user_id row = Some pk) then user else row) <$> table)
  = user_id <$> table.
Proof.
  intros Hpk. induction table as [|row table IH]; [done|].
  rewrite !fmap_cons, IH. f_equal. case_bool_decide; congruence.
Qed.

Lemma replace_keeps_emails_distinct (user : User) (pk : Z) (table : list User) :
  user_id user = Some pk →
  NoDup (email <$> table) → NoDup (user_id <$> table) →
  ¬ Exists (λ row, email row = email user ∧ user_id row ≠ Some pk) table →
  NoDup (email <$> ((λ row, if bool_decide (user_id row = Some pk) then user else row)
                      <$> table)).
Proof.
  intros Hpk. induction table as [|row table IH]; [constructor|].
  rewrite !fmap_cons, !NoDup_cons, Exists_cons.
  intros [Hemail Hemails] [Hid Hids] Hfree.
  split; [|apply IH; tauto].
  rewrite list_elem_of_fmap. intros (other' & Heq & Hin).
  apply list_elem_of_fmap in Hin as (other & -> & Hin).
  assert (email other ≠ email row) as Hne.
  { intros Hsame. apply Hemail. rewrite <- Hsame. by apply list_elem_of_fmap_2. }
  assert (user_id other ≠ user_id row) as Hne'.
  { intros Hsame. apply Hid. rewrite <- Hsame. by apply list_elem_of_fmap_2. }
  repeat case_bool_decide; try congruence; apply Hfree.
  - right. apply Exists_exists. exists other. split; [done|]. split; congruence.
  - left. split; congruence.
Qed.

(** [save] keeps the user table well formed, whether it inserts, updates
    or raises. *)
Lemma save_keeps_wf (user : User) db :
  users_wf db →
  (user_id user = None ∨ ∃ pk, user_id user = Some pk ∧ (pk < user_seq db)%Z) →
  users_wf (save user db).2.
Proof.
  intros Hwf Hid. destruct (save user db) as [[saved|e] db'] eqn:Hsave; simpl;
    [|by apply save_raise in Hsave as ->].
  destruct Hid as [Hnone|(pk & Hpk & Hlt)].
  - (* insert *)
    revert Hsave. unfold save.
    destruct (negb (bool_decide _)); [by inversion 1|].
    unfold email_taken. case_bool_decide as Htaken; [by inversion 1|].
    rewrite Hnone. inversion 1; subst. clear Hsave.
    destruct Hwf as (Hemails & Hids & Hbound). unfold users_wf. simpl.
    rewrite !fmap_app. simpl. split_and!.
    + apply NoDup_app. split_and!; [done| |apply NoDup_singleton].
      intros address Hin ->%list_elem_of_singleton.
      apply list_elem_of_fmap in Hin as (row & Heq & Hrow).
      apply Htaken, Exists_exists. exists row. split_and!; [done..|].
      rewrite Hnone. rewrite Forall_forall in Hbound.
      destruct (Hbound row Hrow) as (pk & -> & _). done.
    + apply NoDup_app. split_and!; [done| |apply NoDup_singleton].
      intros key Hin ->%list_elem_of_singleton.
      apply list_elem_of_fmap in Hin as (row & Heq & Hrow).
      rewrite Forall_forall in Hbound.
      destruct (Hbound row Hrow) as (pk & Hpk & Hlt). rewrite Hpk in Heq.
      injection Heq as Heq. lia.
    + apply Forall_app. split.
      * eapply Forall_impl; [done|]. intros row (pk & ? & ?). exists pk. split; [done|lia].
      * constructor; [|done]. exists (user_seq db). split; [done|lia].
  - (* update *)
    destruct (save_update user pk db saved db' Hpk Hsave) as (-> & -> & _ & Hfree).
    destruct Hwf as (Hemails & Hids & Hbound). unfold users_wf. simpl. split_and!.
    + by apply replace_keeps_emails_distinct.
    + by rewrite replace_keeps_ids.
    + apply Forall_fmap. eapply Forall_impl; [done|]. intros row Hrow. simpl.
      case_bool_decide; [by exists pk|done].
Qed.

(** ** [UserManager]: duplicates, the table invariant, superusers *)

Lemma create_user_keeps_wf `{Hasher} (address : option string) raw_password extra_fields db :
  users_wf db → users_wf (create_user address raw_password extra_fields db).2.
Proof.
  intros Hwf. unfold create_user. destruct (negb (truthy address)); [done|].
  unfold mbind, M_bind.
  pose proof (save_keeps_wf (set_password (model (normalize_email address) extra_fields)
                                          raw_password) db Hwf (or_introl eq_refl)) as Hsave.
  destruct (save _ db) as [[saved|e] db']; done.
Qed.

(** X4: a second user under an address that normalizes to one already in
    the table is refused: [create_user] raises [IntegrityError] on the
    unique [email] column and the table is left as it was. *)
Theorem create_user_duplicate_email `{Hasher}
    (address : string) (raw_password : option string) (extra_fields : ExtraFields) (db : DB) :
  users_wf db → address ≠ "" →
  fits_columns (set_password (model (normalize_email (Some address)) extra_fields)
                             raw_password) →
  normalize_email (Some address) ∈ email <$> users db →
  create_user (Some address) raw_password extra_fields db
  = (Raise (IntegrityError "email"), db).
Proof.
  intros Hwf Haddr Hfits Hin. unfold create_user. rewrite (truthy_Some _ Haddr).
  cbn [negb]. unfold mbind, M_bind, save.
  rewrite (bool_decide_eq_true_2 _ Hfits). cbn [negb].
  unfold email_taken. rewrite bool_decide_eq_true_2; [done|].
  apply list_elem_of_fmap in Hin as (row & Heq & Hrow).
  apply Exists_exists. exists row. split_and!; [done..|].
  destruct (wf_stored_id db row Hwf Hrow) as (pk & -> & _). done.
Qed.

Lemma one_user_db_wf : users_wf one_user_db.
Proof.
  unfold users_wf. simpl. split_and!; [apply NoDup_singleton..|].
  constructor; [|done]. exists 1%Z. split; [done|lia].
Qed.

Lemma create_user_duplicate_email_witness :
  create_user (H := prefix_hasher) (Some "user@EXAMPLE.COM") (Some "otherpass") no_extra
              one_user_db
  = (Raise (IntegrityError "email"), one_user_db).
Proof.
  apply (create_user_duplicate_email (H := prefix_hasher)
           "user@EXAMPLE.COM" (Some "otherpass") no_extra one_user_db).
  - exact one_user_db_wf.
  - discriminate.
  - unfold fits_columns. simpl. lia.
  - simpl. by left.
Defined.

(** X5: [create_user] and [create_superuser] keep the user table well
    formed, whatever their arguments and whether they return or raise:
    addresses and keys stay pairwise distinct and every key stays below
    the sequence. Neither removes a row: the table keeps its length or
    grows by one. *)
Theorem create_user_keeps_table_well_formed `{Hasher}
    (address raw_password : option string) (extra_fields : ExtraFields) (db : DB) :
  users_wf db →
  (users_wf (create_user address raw_password extra_fields db).2
   ∧ (length (users db) ≤ length (users (create_user address raw_password extra_fields db).2)
      ≤ S (length (users db)))%nat)
  ∧ (users_wf (create_superuser address raw_password extra_fields db).2
     ∧ (length (users db)
        ≤ length (users (create_superuser address raw_password extra_fields db).2)
        ≤ S (length (users db)))%nat).
Proof.
  intros Hwf.
  assert (∀ extra,
            (length (users db) ≤ length (users (create_user address raw_password extra db).2)
             ≤ S (length (users db)))%nat) as Hlen.
  { intros extra.
    destruct (create_user address raw_password extra db) as [[user|e] db1] eqn:Hrun; simpl.
    - destruct address as [address|]; [|by inversion Hrun].
      apply create_user_ok in Hrun as [_ ->]. simpl. rewrite length_app. simpl. lia.
    - apply create_user_raise in Hrun as ->. lia. }
  split; [split; [by apply create_user_keeps_wf|apply Hlen]|].
  pose proof (create_user_keeps_wf address raw_password no_extra db Hwf) as Hwf1.
  specialize (Hlen no_extra).
  unfold create_superuser, mbind, M_bind.
  destruct (create_user address raw_password no_extra db) as [[user|e] db1] eqn:Hrun;
    simpl in *; [|done].
  destruct address as [address|]; [|by inversion Hrun].
  apply create_user_ok in Hrun as [Huser Hdb1].
  pose proof (save_keeps_wf (set_is_superuser (set_is_staff user true) true) db1 Hwf1) as Hwf2.
  destruct (save _ db1) as [[saved|e] db2] eqn:Hsave; simpl in *.
  - split.
    + apply Hwf2. right. exists (user_seq db). rewrite Huser, Hdb1. simpl. split; [done|lia].
    + eapply (save_update _ (user_seq db)) in Hsave as (_ & -> & _); [|by rewrite Huser].
      simpl. by rewrite length_fmap.
  - apply save_raise in Hsave as ->. split; [|done].
    apply Hwf2. right. exists (user_seq db). rewrite Huser, Hdb1. simpl. split; [done|lia].
Qed.

Lemma create_user_keeps_table_well_formed_witness :
  users_wf (create_user (H := prefix_hasher) (Some "new@example.com") (Some "pass123")
                        no_extra one_user_db).2
  ∧ users_wf (create_superuser (H := prefix_hasher) (Some "admin@example.com")
                               (Some "test123") no_extra one_user_db).2.
Proof.
  destruct (create_user_keeps_table_well_formed (H := prefix_hasher)
              (Some "new@example.com") (Some "pass123") no_extra one_user_db one_user_db_wf)
    as [[Hcreate _] _].
  destruct (create_user_keeps_table_well_formed (H := prefix_hasher)
              (Some "admin@example.com") (Some "test123") no_extra one_user_db one_user_db_wf)
    as [_ [Hsuper _]].
  by split.
Defined.

(** X6: on a well-formed table, for a non-empty address that is free and
    values that fit the columns, [create_superuser] returns a user with
    [is_staff] and [is_superuser] set, the hashed password and the
    normalized address, and the table gains exactly that row under the
    next key. The extra fields it is called with are not passed on: the
    name is empty and the user is active whatever they say. *)
Theorem create_superuser_sets_flags `{Hasher}
    (address : string) (raw_password : option string) (extra_fields : ExtraFields) (db : DB) :
  users_wf db → address ≠ "" →
  fits_columns (set_password (model (normalize_email (Some address)) no_extra) raw_password) →
  Forall (λ row, email row ≠ normalize_email (Some address)) (users db) →
  create_superuser (Some address) raw_password extra_fields db
  = (Ok (mkUser (Some (user_seq db)) (normalize_email (Some address)) ""
                (make_password raw_password) true true true),
     set_users db
       (users db ++ [mkUser (Some (user_seq db)) (normalize_email (Some address)) ""
                            (make_password raw_password) true true true])
       (user_seq db + 1)).
Proof.
  intros Hwf Haddr Hfits Hfree.
  set (row := with_id (set_password (model (normalize_email (Some address)) no_extra)
                                    raw_password) (user_seq db)).
  assert (create_user (Some address) raw_password no_extra db
          = (Ok row, set_users db (users db ++ [row]) (user_seq db + 1))) as Hcreate.
  { unfold create_user. rewrite (truthy_Some _ Haddr). cbn [negb].
    unfold mbind, M_bind. cbv beta. by rewrite save_insert. }
  unfold create_superuser. rewrite (bind_ok _ _ _ _ _ Hcreate).
  set (super := set_is_superuser (set_is_staff row true) true).
  unfold mbind, M_bind, mret, M_ret, save.
  rewrite (bool_decide_eq_true_2 (fits_columns super)) by exact Hfits. cbn [negb].
  assert (email_taken (users (set_users db (users db ++ [row]) (user_seq db + 1))) super = false)
    as ->.
  { unfold email_taken. apply bool_decide_eq_false_2. simpl.
    rewrite Exists_app, Exists_cons, Exists_nil. intros [Htaken|[[_ Hne]|[]]]; [|done].
    apply Exists_exists in Htaken as (other & Hother & Heq & _).
    rewrite Forall_forall in Hfree. by apply (Hfree other Hother). }
  simpl user_id. cbv iota beta. f_equal. unfold set_users. simpl. f_equal.
  rewrite fmap_app. f_equal.
  - rewrite <- (list_fmap_id (users db)) at 2. apply list_fmap_ext.
    intros i other Hother. apply list_elem_of_lookup_2 in Hother.
    destruct (wf_stored_id db other Hwf Hother) as (pk & HpK & Hlt).
    rewrite bool_decide_eq_false_2; [done|]. rewrite HpK. intros [= ->]. lia.
  - simpl. by rewrite bool_decide_eq_true_2.
Qed.

Lemma create_superuser_sets_flags_witness :
  create_superuser (H := prefix_hasher) (Some "admin@Example.com") (Some "test123")
                   (mkExtra (Some "Chief") (Some false) None None) one_user_db
  = (Ok (mkUser (Some 2%Z) "admin@example.com" "" "plain$test123" true true true),
     set_users one_user_db
       [user1; mkUser (Some 2%Z) "admin@example.com" "" "plain$test123" true true true] 3).
Proof.
  apply (create_superuser_sets_flags (H := prefix_hasher) "admin@Example.com" (Some "test123")
           (mkExtra (Some "Chief") (Some false) None None) one_user_db).
  - exact one_user_db_wf.
  - discriminate.
  - unfold fits_columns. simpl. lia.
  - constructor; [discriminate|constructor].
Defined.

(** ** [UserSerializer.update] *)

(** The instance with the validated [email] and [name] set on it. *)
Lemma ModelSerializer_update_ok (instance : User) (pk : Z)
    (validated_data : gmap string string) db user db' :
  user_id instance = Some pk →
  ModelSerializer_update instance validated_data db = (Ok user, db') →
  user = mkUser (user_id instance)
                (default (email instance) (validated_data !! "email"))
                (default (name instance) (validated_data !! "name"))
                (password instance) (is_active instance) (is_staff instance)
                (is_superuser instance)
  ∧ db' = set_users db
            ((λ row, if bool_decide (user_id row = Some pk) then user else row) <$> users db)
            (user_seq db).
Proof.
  intros Hpk. unfold ModelSerializer_update. intros Hsave.
  apply (save_update _ pk) in Hsave as (-> & -> & _).
  - split; [|done]. destruct instance.
    by destruct (validated_data !! "email"), (validated_data !! "name").
  - by destruct (validated_data !! "email"), (validated_data !! "name").
Qed.

(** The shape of every successful [UserSerializer.update] of a stored
    instance. *)
Lemma UserSerializer_update_ok `{Hasher} (instance : User) (pk : Z)
    (validated_data : gmap string string) db user db' :
  user_id instance = Some pk →
  UserSerializer_update instance validated_data db = (Ok user, db') →
  user = mkUser (user_id instance)
                (default (email instance) (validated_data !! "email"))
                (default (name instance) (validated_data !! "name"))
                (if truthy (validated_data !! "password")
                 then make_password (validated_data !! "password")
                 else password instance)
                (is_active instance) (is_staff instance) (is_superuser instance)
  ∧ db' = set_users db
            ((λ row, if bool_decide (user_id row = Some pk) then user else row) <$> users db)
            (user_seq db).
Proof.
  intros Hpk. unfold UserSerializer_update, mbind, M_bind.
  destruct (ModelSerializer_update instance (delete "password" validated_data) db)
    as [[updated|e] db1] eqn:Hfirst; [|by inversion 1].
  apply (ModelSerializer_update_ok instance pk) in Hfirst as [Hupdated ->]; [|done].
  rewrite (lookup_delete_ne validated_data "password" "email") in Hupdated
    by (intros Heq; discriminate Heq).
  rewrite (lookup_delete_ne validated_data "password" "name") in Hupdated
    by (intros Heq; discriminate Heq).
  destruct (truthy (validated_data !! "password")).
  - destruct (save (set_password updated (validated_data !! "password")) _)
      as [[saved|e] db2] eqn:Hsecond; [|by inversion 1].
    unfold mret, M_ret. intros [= <- <-].
    apply (save_update _ pk) in Hsecond as (-> & -> & _); [|by rewrite Hupdated].
    split; [by rewrite Hupdated|].
    unfold set_users. simpl. f_equal. rewrite <- list_fmap_compose.
    apply list_fmap_ext. intros i row _. simpl.
    destruct (bool_decide (user_id row = Some pk)) eqn:Hrow.
    + rewrite bool_decide_eq_true_2; [done|by rewrite Hupdated].
    + by rewrite Hrow.
  - unfold mret, M_ret. intros [= <- <-]. done.
Qed.

(** X7: [UserSerializer.update] of a stored instance never stores a
    password as it was sent: when it returns, the password of the user is
    the hash of the validated password if one was given and is not empty,
    and the stored hash of the instance otherwise. The validated [email]
    and [name] are set, absent ones keep their value, and the key and the
    three flags of the instance never change. *)
Theorem UserSerializer_update_hashes_password `{Hasher} (instance : User) (pk : Z)
    (validated_data : gmap string string) (db : DB) (user : User) (db' : DB) :
  user_id instance = Some pk →
  UserSerializer_update instance validated_data db = (Ok user, db') →
  password user
  = (if truthy (validated_data !! "password")
     then make_password (validated_data !! "password")
     else password instance)
  ∧ email user = default (email instance) (validated_data !! "email")
  ∧ name user = default (name instance) (validated_data !! "name")
  ∧ user_id user = Some pk
  ∧ is_active user = is_active instance
  ∧ is_staff user = is_staff instance
  ∧ is_superuser user = is_superuser instance.
Proof.
  intros Hpk Hrun.
  destruct (UserSerializer_update_ok instance pk validated_data db user db' Hpk Hrun)
    as [-> _].
  by simpl.
Qed.

Lemma UserSerializer_update_hashes_password_witness :
  ∃ user db',
    UserSerializer_update (H := prefix_hasher) user1 profile_update one_user_db
    = (Ok user, db')
    ∧ password user = "plain$newpassword123"
    ∧ email user = "user@example.com"
    ∧ name user = "Updated name"
    ∧ user_id user = Some 1%Z
    ∧ is_active user = true
    ∧ is_staff user = false
    ∧ is_superuser user = false.
Proof.
  destruct (UserSerializer_update (H := prefix_hasher) user1 profile_update one_user_db)
    as [[user|e] db'] eqn:Hrun; [|vm_compute in Hrun; discriminate Hrun].
  exists user, db'. split; [reflexivity|].
  exact (UserSerializer_update_hashes_password (H := prefix_hasher)
           user1 1 profile_update one_user_db user db' eq_refl Hrun).
Defined.



(** ** [UserSerializer]: what reaches [validated_data] *)

Lemma validate_field_messages `{EmailValidator}
    (instance : option User) (partial : bool) (table : list User)
    (data : gmap string string) (name : string) (field : CharField) messages :
  validate_field instance partial table data name field = inr messages → messages ≠ [].
Proof.
  unfold validate_field. destruct (data !! name) as [raw|].
  - destruct (run_validation field raw) as [value|failed] eqn:Hrun.
    + destruct (if bool_decide (name = "email") then _ else _); [done|]. by intros [= <-].
    + intros [= <-]. by eapply run_validation_messages.
  - destruct partial; [done|]. by intros [= <-].
Qed.

(** A request is read through the declared fields alone. *)
Lemma validate_fields_agree `{EmailValidator}
    (instance : option User) (partial : bool) (table : list User)
    (data data' : gmap string string) (fields : list (string * CharField)) :
  (∀ key, key ∈ fields.*1 → data !! key = data' !! key) →
  validate_fields instance partial table data fields
  = validate_fields instance partial table data' fields.
Proof.
  induction fields as [|[name field] fields IH]; intros Hagree; [done|].
  cbn [validate_fields]. rewrite IH.
  - unfold validate_field. rewrite (Hagree name); [done|]. by left.
  - intros key Hkey. apply Hagree. by right.
Qed.

(** When no field reported an error, [validated_data] holds, under each
    declared name, what the field validated to, and nothing under any
    other key. *)
Lemma validate_fields_ok `{EmailValidator}
    (instance : option User) (partial : bool) (table : list User)
    (data : gmap string string) (fields : list (string * CharField)) validated_data :
  NoDup fields.*1 →
  validate_fields instance partial table data fields = (validated_data, []) →
  (∀ name field, (name, field) ∈ fields →
     validate_field instance partial table data name field = inl (validated_data !! name))
  ∧ (∀ key, key ∉ fields.*1 → validated_data !! key = None).
Proof.
  revert validated_data. induction fields as [|[name field] fields IH];
    intros validated_data Hnames.
  { intros [= <-]. split; [by intros ? ? ?%elem_of_nil|done]. }
  rewrite fmap_cons in Hnames. apply NoDup_cons in Hnames as [Hname Hnames].
  cbn [validate_fields].
  destruct (validate_fields instance partial table data fields) as [rest errors].
  destruct (validate_field instance partial table data name field)
    as [[value|]|messages] eqn:Hfield.
  - intros [= <- ->]. destruct (IH rest Hnames eq_refl) as [Hdeclared Hother].
    split.
    + intros name' field' [[= -> ->]|Hin]%elem_of_cons.
      * by rewrite Hfield, lookup_insert_eq.
      * rewrite lookup_insert_ne; [by apply Hdeclared|].
        intros <-. apply Hname. by apply (list_elem_of_fmap_2 fst _ (name, field')).
    + intros key Hkey. rewrite fmap_cons, not_elem_of_cons in Hkey. destruct Hkey.
      rewrite lookup_insert_ne; [by apply Hother|done].
  - intros [= <- ->]. destruct (IH rest Hnames eq_refl) as [Hdeclared Hother].
    split.
    + intros name' field' [[= -> ->]|Hin]%elem_of_cons.
      * by rewrite Hfield, Hother.
      * by apply Hdeclared.
    + intros key Hkey. rewrite fmap_cons, not_elem_of_cons in Hkey. destruct Hkey.
      by apply Hother.
  - intros [= _ Herrors]. apply app_eq_nil in Herrors as [Hnil _].
    apply fmap_nil_inv in Hnil. by apply validate_field_messages in Hfield.
Qed.

(** What a trimming field that refuses blanks lets through. *)
Lemma run_validation_value (field : CharField) (raw value : string) :
  trim_whitespace field = true → allow_blank field = false →
  run_validation field raw = inl value →
  value = strip raw ∧ run_validators field value = [].
Proof.
  intros Htrim Hblank. unfold run_validation. rewrite Htrim, Hblank.
  destruct (_ || _); [done|].
  destruct (run_validators field (strip raw)) eqn:Hvalidators; [|done].
  by intros [= <-].
Qed.

Lemma validate_field_value `{EmailValidator}
    (instance : option User) (partial : bool) (table : list User)
    (data : gmap string string) (name : string) (field : CharField) result :
  trim_whitespace field = true → allow_blank field = false →
  validate_field instance partial table data name field = inl result →
  result = strip <$> data !! name
  ∧ (∀ value, result = Some value → run_validators field value = [])
  ∧ (name = "email" → ∀ value, result = Some value → email_ok value = true).
Proof.
  intros Htrim Hblank. unfold validate_field.
  destruct (data !! name) as [raw|]; simpl.
  - destruct (run_validation field raw) as [value|] eqn:Hrun; [|done].
    apply run_validation_value in Hrun as [-> Hvalidators]; [|done..].
    destruct (if bool_decide (name = "email") then _ else _) eqn:Hextra; [|done].
    intros [= <-]. split_and!; [done|by intros ? [= <-]|].
    intros -> value [= <-]. rewrite bool_decide_eq_true_2 in Hextra by done.
    unfold email_validators in Hextra. by destruct (email_ok _).
  - destruct partial; [|done]. intros [= <-]. by split_and!.
Qed.

Lemma min_length_respected (field : CharField) (value : string) (n : nat) :
  min_length field = Some n → run_validators field value = [] → (n ≤ String.length value)%nat.
Proof.
  intros Hmin. unfold run_validators. rewrite Hmin.
  intros [_ Hshort]%app_eq_nil. case_bool_decide; [done|lia].
Qed.

(** X9: a request is read through the declared fields alone: two requests
    that agree on [email], [password] and [name] have the same outcome and
    leave the same database, on create as on update, whatever other keys
    (such as [is_staff] or [id]) either of them carries. *)
Theorem UserSerializer_ignores_undeclared_keys `{Hasher} `{EmailValidator}
    (instance : option User) (partial : bool) (data data' : gmap string string) (db : DB) :
  data !! "email" = data' !! "email" →
  data !! "password" = data' !! "password" →
  data !! "name" = data' !! "name" →
  UserSerializer_save instance partial data db = UserSerializer_save instance partial data' db.
Proof.
  intros Hemail Hpassword Hname.
  unfold UserSerializer_save, is_valid, mbind, M_bind, get_db.
  rewrite (validate_fields_agree instance partial (users db) data data'); [done|].
  intros key. unfold UserSerializer_fields. simpl.
  rewrite !elem_of_cons, elem_of_nil. intros [->|[->|[->|[]]]]; done.
Qed.

Lemma UserSerializer_ignores_undeclared_keys_witness :
  UserSerializer_save (H := prefix_hasher) (H0 := has_at) None false
                      (<["is_staff" := "true"]> (<["is_superuser" := "true"]> registration_data))
                      empty_db
  = UserSerializer_save (H := prefix_hasher) (H0 := has_at) None false registration_data
                        empty_db.
Proof.
  apply (UserSerializer_ignores_undeclared_keys (H := prefix_hasher) (H0 := has_at)
           None false _ registration_data empty_db); reflexivity.
Defined.

(** X10: a registration that fails writes nothing: when the serializer is
    saved without an instance and raises, for invalid fields, for a
    missing address or for a refusal of the database, the database is as
    it was before. *)
Theorem failed_registration_writes_nothing `{Hasher} `{EmailValidator}
    (partial : bool) (data : gmap string string) (db : DB) (e : exn) (db' : DB) :
  UserSerializer_save None partial data db = (Raise e, db') → db' = db.
Proof.
  unfold UserSerializer_save, is_valid, mbind, M_bind, get_db.
  destruct (validate_fields None partial (users db) data UserSerializer_fields)
    as [validated_data [|error errors]]; [|by intros [= _ <-]].
  unfold mret, M_ret, UserSerializer_create.
  destruct (validated_data !! "email") as [address|]; [|by intros [= _ <-]].
  apply create_user_raise.
Qed.

Lemma failed_registration_writes_nothing_witness :
  ∃ e db',
    UserSerializer_save (H := prefix_hasher) (H0 := has_at) None false
                        duplicate_registration_data one_user_db = (Raise e, db')
    ∧ db' = one_user_db.
Proof.
  destruct (UserSerializer_save (H := prefix_hasher) (H0 := has_at) None false
                                duplicate_registration_data one_user_db)
    as [[user|e] db'] eqn:Hrun; [vm_compute in Hrun; discriminate Hrun|].
  exists e, db'. split; [reflexivity|].
  exact (failed_registration_writes_nothing (H := prefix_hasher) (H0 := has_at)
           false duplicate_registration_data one_user_db e db' Hrun).
Defined.

(** X11: every registration that goes through (the serializer saved
    without an instance) appends exactly the returned user to the table,
    under the next key; the user is active and is neither staff nor
    superuser; its password is the hash of the trimmed password of the
    request, which has at least 5 characters if present; its address is
    the normalized trimmed address of the request, which passed the format
    check; its name is the trimmed name. *)
Theorem registration_creates_plain_user `{Hasher} `{EmailValidator}
    (partial : bool) (data : gmap string string) (db : DB) (user : User) (db' : DB) :
  UserSerializer_save None partial data db = (Ok user, db') →
  users db' = (users db ++ [user])%list
  ∧ user_id user = Some (user_seq db)
  ∧ is_active user = true ∧ is_staff user = false ∧ is_superuser user = false
  ∧ password user = make_password (strip <$> data !! "password")
  ∧ (∀ raw, data !! "password" = Some raw → (5 ≤ String.length (strip raw))%nat)
  ∧ (∃ raw, data !! "email" = Some raw
            ∧ email user = normalize_email (Some (strip raw))
            ∧ email_ok (strip raw) = true)
  ∧ name user = default "" (strip <$> data !! "name").
Proof.
  unfold UserSerializer_save, is_valid, mbind, M_bind, get_db.
  destruct (validate_fields None partial (users db) data UserSerializer_fields)
    as [validated_data [|error errors]] eqn:Hvalid; [|done].
  apply validate_fields_ok in Hvalid as [Hdeclared _];
    [|exact (bool_decide_unpack (NoDup UserSerializer_fields.*1) I)].
  unfold UserSerializer_fields in Hdeclared.
  pose proof (Hdeclared "email" _ ltac:(constructor)) as Hemail.
  pose proof (Hdeclared "password" _ ltac:(do 1 constructor; constructor)) as Hpassword.
  pose proof (Hdeclared "name" _ ltac:(do 2 constructor; constructor)) as Hname.
  apply validate_field_value in Hemail as (Hemail & _ & Hformat); [|done..].
  apply validate_field_value in Hpassword as (Hpassword & Hlength & _); [|done..].
  apply validate_field_value in Hname as (Hname & _ & _); [|done..].
  unfold mret, M_ret, UserSerializer_create.
  destruct (validated_data !! "email") as [address|] eqn:Haddress; [|done].
  intros [-> ->]%create_user_ok. simpl.
  split_and!; try done.
  - by rewrite Hpassword.
  - intros raw Hraw. rewrite Hraw in Hpassword. simpl in Hpassword.
    apply (min_length_respected (mkCharField (Some 128%nat) (Some 5%nat) true false true));
      [done|]. by apply Hlength.
  - destruct (data !! "email") as [raw|]; [|done]. injection Hemail as ->.
    exists raw. split_and!; [done..|]. by apply Hformat.
  - by rewrite Hname.
Qed.

Lemma registration_creates_plain_user_witness :
  ∃ user db',
    UserSerializer_save (H := prefix_hasher) (H0 := has_at) None false
                        registration_data one_user_db = (Ok user, db')
    ∧ users db' = [user1; user]
    ∧ is_staff user = false ∧ is_superuser user = false
    ∧ password user = "plain$testpass123".
Proof.
  destruct (UserSerializer_save (H := prefix_hasher) (H0 := has_at) None false
                                registration_data one_user_db)
    as [[user|e] db'] eqn:Hrun; [|vm_compute in Hrun; discriminate Hrun].
  exists user, db'. split; [reflexivity|].
  destruct (registration_creates_plain_user (H := prefix_hasher) (H0 := has_at)
              false registration_data one_user_db user db' Hrun)
    as (Husers & _ & _ & Hstaff & Hsuper & Hpassword & _).
  by split_and!.
Defined.

(** ** [UserSerializer]: the representation *)

Lemma to_representation_write_only (fields : list (string * CharField)) (instance : User)
    (name : string) :
  (∀ field, (name, field) ∈ fields → write_only field = true) →
  to_representation fields instance !! name = None.
Proof.
  induction fields as [|[attribute field] fields IH]; intros Hwrite; [done|].
  cbn [to_representation].
  assert (to_representation fields instance !! name = None) as Hrest.
  { apply IH. intros field' Hin. apply Hwrite. by right. }
  destruct (write_only field) eqn:Hfield; [done|].
  destruct (getattr instance attribute); [|done].
  rewrite lookup_insert_ne; [done|].
  intros ->. rewrite (Hwrite field) in Hfield; [done|by left].
Qed.

(** X12: a field declared write-only never shows in the representation of
    an instance; for the user serializer, whose [password] is write-only,
    the data of a user holds the address and the name of the user and no
    other key: neither the password nor its hash is ever given out. *)
Theorem UserSerializer_data_omits_password (instance : User) :
  (∀ fields name,
     (∀ field, (name, field) ∈ fields → write_only field = true) →
     to_representation fields instance !! name = None)
  ∧ UserSerializer_data instance !! "password" = None
  ∧ UserSerializer_data instance !! "email" = Some (email instance)
  ∧ UserSerializer_data instance !! "name" = Some (name instance)
  ∧ (∀ key, key ≠ "email" → key ≠ "name" → UserSerializer_data instance !! key = None).
Proof.
  split; [intros fields name; apply to_representation_write_only|].
  assert (UserSerializer_data instance
          = <["email" := email instance]> (<["name" := name instance]> ∅)) as ->
    by reflexivity.
  split_and!.
  - by rewrite !lookup_insert_ne.
  - by rewrite lookup_insert_eq.
  - by rewrite lookup_insert_ne, lookup_insert_eq.
  - intros key Hemail Hname. by rewrite !lookup_insert_ne.
Qed.

(** ** [AuthTokenSerializer.validate]: success *)


(** ** Retrieval through the owner-scoped querysets *)

(** Looking a key up in a sorted, filtered table with distinct keys finds
    the row under that key when it passes the filter, and nothing
    otherwise. *)
Lemma get_object_found {A : Type} (key : A → Z) (R : relation A) `{∀ x y, Decision (R x y)}
    (P : A → Prop) `{∀ x, Decision (P x)} (table : list A) (row : A) :
  NoDup (key <$> table) → row ∈ table → P row →
  get_object key (merge_sort R (filter P table)) (key row) = Ok row.
Proof.
  intros Hkeys Hrow HP. unfold get_object.
  destruct (list_find (λ r, key r = key row) (merge_sort R (filter P table)))
    as [[i found]|] eqn:Hfind.
  - apply list_find_Some in Hfind as (Hi & Hkey & _).
    apply list_elem_of_lookup_2 in Hi. rewrite merge_sort_Permutation in Hi.
    apply list_elem_of_filter in Hi as [_ Hi].
    by rewrite (NoDup_key_inj key table found row Hkeys Hi Hrow Hkey).
  - apply list_find_None in Hfind. rewrite Forall_forall in Hfind.
    destruct (Hfind row); [|done].
    rewrite merge_sort_Permutation. by apply list_elem_of_filter.
Qed.

Lemma get_object_not_found {A : Type} (key : A → Z) (R : relation A)
    `{∀ x y, Decision (R x y)} (P : A → Prop) `{∀ x, Decision (P x)}
    (table : list A) (pk : Z) :
  (∀ row, row ∈ table → key row = pk → ¬ P row) →
  get_object key (merge_sort R (filter P table)) pk = Raise Http404.
Proof.
  intros Hnone. unfold get_object.
  destruct (list_find (λ r, key r = pk) (merge_sort R (filter P table)))
    as [[i found]|] eqn:Hfind; [|done].
  apply list_find_Some in Hfind as (Hi & Hkey & _).
  apply list_elem_of_lookup_2 in Hi. rewrite merge_sort_Permutation in Hi.
  apply list_elem_of_filter in Hi as [HP Hi]. by destruct (Hnone found Hi Hkey).
Qed.

(** X14: with distinct recipe keys, retrieving a recipe by its key returns
    that very row to its owner; to every other user it answers not-found,
    exactly as it does for a key under which no recipe is stored. *)
Theorem recipe_retrieve_own_or_not_found (user : User) (db : DB) :
  NoDup (recipe_id <$> recipes db) →
  (∀ row, row ∈ recipes db → owned_by user (recipe_user row) →
     RecipeViewSet_retrieve user (recipe_id row) db = Ok row)
  ∧ (∀ row, row ∈ recipes db → ¬ owned_by user (recipe_user row) →
       RecipeViewSet_retrieve user (recipe_id row) db = Raise Http404)
  ∧ (∀ pk, pk ∉ recipe_id <$> recipes db →
       RecipeViewSet_retrieve user pk db = Raise Http404).
Proof.
  intros Hkeys. unfold RecipeViewSet_retrieve, RecipeViewSet_get_queryset. split_and!.
  - intros row Hrow Howned.
    by apply (get_object_found recipe_id id_desc (λ r, owned_by user (recipe_user r))).
  - intros row Hrow Hother. apply get_object_not_found. intros other Hin Hkey.
    by rewrite (NoDup_key_inj recipe_id (recipes db) other row Hkeys Hin Hrow Hkey).
  - intros pk Hpk. apply get_object_not_found. intros other Hin Hkey _.
    apply Hpk. rewrite <- Hkey. by apply list_elem_of_fmap_2.
Qed.

Lemma recipe_retrieve_own_or_not_found_witness :
  RecipeViewSet_retrieve user1 3 interleaved_db = Ok (mkRecipe 3 1 "Tacos" "" 60 430 "")
  ∧ RecipeViewSet_retrieve user2 3 interleaved_db = Raise Http404
  ∧ RecipeViewSet_retrieve user2 7 interleaved_db = Raise Http404.
Proof.
  pose proof (bool_decide_unpack (NoDup (recipe_id <$> recipes interleaved_db)) I) as Hkeys.
  destruct (recipe_retrieve_own_or_not_found user1 interleaved_db Hkeys) as (Hown & _ & _).
  destruct (recipe_retrieve_own_or_not_found user2 interleaved_db Hkeys)
    as (_ & Hother & Hmissing).
  split_and!.
  - apply (Hown (mkRecipe 3 1 "Tacos" "" 60 430 "")); [|reflexivity].
    do 2 right. by left.
  - apply (Hother (mkRecipe 3 1 "Tacos" "" 60 430 "")); [|discriminate].
    do 2 right. by left.
  - apply Hmissing. simpl. rewrite !elem_of_cons, elem_of_nil.
    intros [?|[?|[?|[?|[]]]]]; discriminate.
Defined.

(** X15: the same holds for the tag and the ingredient that an update or
    a destroy looks up: with distinct keys, the owner gets the row, and
    every other user gets not-found, as for a key that is not stored. *)
Theorem attr_lookup_own_or_not_found (user : User) (db : DB) :
  NoDup (tag_id <$> tags db) → NoDup (ingredient_id <$> ingredients db) →
  (∀ row, row ∈ tags db →
     TagViewSet_get_object user (tag_id row) db
     = if decide (owned_by user (tag_user row)) then Ok row else Raise Http404)
  ∧ (∀ row, row ∈ ingredients db →
       IngredientViewSet_get_object user (ingredient_id row) db
       = if decide (owned_by user (ingredient_user row)) then Ok row else Raise Http404)
  ∧ (∀ pk, pk ∉ tag_id <$> tags db → TagViewSet_get_object user pk db = Raise Http404)
  ∧ (∀ pk, pk ∉ ingredient_id <$> ingredients db →
       IngredientViewSet_get_object user pk db = Raise Http404).
Proof.
  intros Htags Hingredients.
  unfold TagViewSet_get_object, IngredientViewSet_get_object,
    BaseRecipeAttrViewSet_get_queryset.
  split_and!.
  - intros row Hrow. case_decide as Howned.
    + by apply (get_object_found tag_id name_desc (λ r, owned_by user (tag_user r))).
    + apply get_object_not_found. intros other Hin Hkey.
      by rewrite (NoDup_key_inj tag_id (tags db) other row Htags Hin Hrow Hkey).
  - intros row Hrow. case_decide as Howned.
    + by apply (get_object_found ingredient_id name_desc
                  (λ r, owned_by user (ingredient_user r))).
    + apply get_object_not_found. intros other Hin Hkey.
      by rewrite (NoDup_key_inj ingredient_id (ingredients db) other row
                    Hingredients Hin Hrow Hkey).
  - intros pk Hpk. apply get_object_not_found. intros other Hin Hkey _.
    apply Hpk. simpl in Hkey. rewrite <- Hkey. by apply list_elem_of_fmap_2.
  - intros pk Hpk. apply get_object_not_found. intros other Hin Hkey _.
    apply Hpk. simpl in Hkey. rewrite <- Hkey. by apply list_elem_of_fmap_2.
Qed.

Lemma attr_lookup_own_or_not_found_witness :
  TagViewSet_get_object user1 2 kale_vanilla_db = Ok (mkTag 2 "Vanilla" 1)
  ∧ IngredientViewSet_get_object user2 1 kale_vanilla_db = Raise Http404.
Proof.
  pose proof (bool_decide_unpack (NoDup (tag_id <$> tags kale_vanilla_db)) I) as Htags.
  pose proof (bool_decide_unpack (NoDup (ingredient_id <$> ingredients kale_vanilla_db)) I)
    as Hingredients.
  destruct (attr_lookup_own_or_not_found user1 kale_vanilla_db Htags Hingredients)
    as (Htag & _).
  destruct (attr_lookup_own_or_not_found user2 kale_vanilla_db Htags Hingredients)
    as (_ & Hingredient & _).
  split.
  - apply (Htag (mkTag 2 "Vanilla" 1)). right. by left.
  - apply (Hingredient (mkIngredient 1 "Kale" 1)). by left.
Defined.

(** X16: the newest recipe comes first: when a table with distinct keys
    gains, at whatever position, a recipe of the user whose key is greater
    than every key stored, the list of the user is that recipe followed
    by the list as it was. *)
Theorem newest_recipe_listed_first (user : User) (new : Recipe)
    (queryset queryset' : list Recipe) :
  NoDup (recipe_id <$> queryset) →
  Forall (λ row, (recipe_id row < recipe_id new)%Z) queryset →
  owned_by user (recipe_user new) →
  queryset' ≡ₚ new :: queryset →
  RecipeViewSet_get_queryset user queryset' = new :: RecipeViewSet_get_queryset user queryset.
Proof.
  intros Hkeys Hnewest Howned Hperm.
  assert (RecipeViewSet_get_queryset user queryset'
          ≡ₚ new :: RecipeViewSet_get_queryset user queryset) as Hsame.
  { rewrite !RecipeViewSet_get_queryset_perm, Hperm. by rewrite filter_cons_True. }
  apply (StronglySorted_unique_strong id_desc);
    [|apply RecipeViewSet_get_queryset_sorted| |done].
  - intros x1 x2 Hx1 Hx2 H12 H21. rewrite Hsame in Hx1.
    assert (∀ x, x ∈ new :: RecipeViewSet_get_queryset user queryset →
                 x = new ∨ (x ∈ queryset ∧ (recipe_id x < recipe_id new)%Z)) as Hcases.
    { intros x [->|Hx]%elem_of_cons; [by left|right].
      rewrite RecipeViewSet_get_queryset_perm in Hx.
      apply list_elem_of_filter in Hx as [_ Hx]. split; [done|].
      rewrite Forall_forall in Hnewest. by apply Hnewest. }
    unfold id_desc in *.
    destruct (Hcases x1 Hx1) as [->|[Hin1 Hlt1]], (Hcases x2 Hx2) as [->|[Hin2 Hlt2]];
      [done|lia|lia|].
    apply (NoDup_key_inj recipe_id queryset); [done..|lia].
  - constructor; [apply RecipeViewSet_get_queryset_sorted|].
    apply Forall_forall. intros row Hrow.
    rewrite RecipeViewSet_get_queryset_perm in Hrow.
    apply list_elem_of_filter in Hrow as [_ Hrow].
    rewrite Forall_forall in Hnewest. unfold id_desc. specialize (Hnewest row Hrow). lia.
Qed.

Lemma newest_recipe_listed_first_witness :
  RecipeViewSet_get_queryset user1
    (mkRecipe 2 2 "Cake" "" 50 700 "" :: mkRecipe 5 1 "Ramen" "" 25 990 ""
     :: recipes reordered_db)
  = mkRecipe 5 1 "Ramen" "" 25 990 ""
    :: RecipeViewSet_get_queryset user1 (mkRecipe 2 2 "Cake" "" 50 700 "" :: recipes reordered_db).
Proof.
  apply (newest_recipe_listed_first user1 (mkRecipe 5 1 "Ramen" "" 25 990 "")).
  - exact (bool_decide_unpack
             (NoDup (recipe_id <$> mkRecipe 2 2 "Cake" "" 50 700 "" :: recipes reordered_db)) I).
  - simpl. repeat (constructor; [simpl; lia|]). constructor.
  - reflexivity.
  - apply perm_swap.
Defined.

Lemma handle_reports_available_only_when_up_witness :
  (handle [OperationalError; Psychopg2OpError]).1 = StillWaiting
  ∧ slept (handle [OperationalError; Psychopg2OpError]).2 = 2%Z.
Proof.
  destruct (handle_reports_available_only_when_up [OperationalError; Psychopg2OpError])
    as (_ & _ & Hwaiting).
  apply Hwaiting. constructor; [by right|]. constructor; [by left|constructor].
Defined.

Lemma UserSerializer_data_omits_password_witness :
  to_representation UserSerializer_fields user1 !! "password" = None
  ∧ UserSerializer_data user1 !! "email" = Some "user@example.com".
Proof.
  destruct (UserSerializer_data_omits_password user1) as (Hwrite & _ & Hemail & _).
  split; [|exact Hemail].
  apply Hwrite. intros field. unfold UserSerializer_fields.
  rewrite !elem_of_cons, elem_of_nil.
  intros [Heq|[Heq|[Heq|[]]]]; by inversion Heq.
Defined.


(** ** Rows created through the managers *)

(** X17: a tag or an ingredient created for an owner shows in the list of
    that owner, together with the rows listed before, and leaves the list
    of every other user as it was (the ingredient test creates Salt for a
    second user and Pepper for the first, and finds Pepper alone). *)
Theorem created_attr_listed_for_owner_only (user : User) (pk owner : Z) (name : string)
    (db : DB) :
  user_id user = Some pk →
  (IngredientViewSet_list user (Ingredient_objects_create owner name db).2
   ≡ₚ (if decide (pk = owner) then [mkIngredient (ingredient_seq db) name owner] else [])
      ++ IngredientViewSet_list user db)
  ∧ (TagViewSet_list user (Tag_objects_create owner name db).2
     ≡ₚ (if decide (pk = owner) then [mkTag (tag_seq db) name owner] else [])
        ++ TagViewSet_list user db)
  ∧ (pk ≠ owner →
     IngredientViewSet_list user (Ingredient_objects_create owner name db).2
     = IngredientViewSet_list user db
     ∧ TagViewSet_list user (Tag_objects_create owner name db).2 = TagViewSet_list user db).
Proof.
  intros Hpk.
  unfold IngredientViewSet_list, TagViewSet_list, BaseRecipeAttrViewSet_get_queryset.
  simpl. rewrite !filter_app. split_and!.
  - rewrite !merge_sort_Permutation. case_decide as Howner.
    + rewrite filter_cons_True by (unfold owned_by; simpl; congruence).
      rewrite filter_nil. apply Permutation_app_comm.
    + rewrite filter_cons_False by (unfold owned_by; simpl; congruence).
      by rewrite filter_nil, app_nil_r.
  - rewrite !merge_sort_Permutation. case_decide as Howner.
    + rewrite filter_cons_True by (unfold owned_by; simpl; congruence).
      rewrite filter_nil. apply Permutation_app_comm.
    + rewrite filter_cons_False by (unfold owned_by; simpl; congruence).
      by rewrite filter_nil, app_nil_r.
  - intros Hother.
    rewrite !filter_cons_False by (unfold owned_by; simpl; congruence).
    by rewrite !filter_nil, !app_nil_r.
Qed.

Lemma created_attr_listed_for_owner_only_witness :
  IngredientViewSet_list user1
    (Ingredient_objects_create 1 "Pepper" (Ingredient_objects_create 2 "Salt" empty_db).2).2
  ≡ₚ [mkIngredient 2 "Pepper" 1].
Proof.
  destruct (created_attr_listed_for_owner_only user1 1 1 "Pepper"
              (Ingredient_objects_create 2 "Salt" empty_db).2 eq_refl) as (Hlist & _).
  exact Hlist.
Defined.
